(** * The crawler engine of package [crawl]: object store, enqueue, job
      handling and the handler middlewares.

    The Go libraries the engine is written against (LevelDB,
    [encoding/gob], [encoding/json], [net/url], [purell], the job queue)
    are interfaces here: their operations are class methods, and the few
    facts about them that a proof needs are stated as hypotheses of that
    proof.

    Conventions.
    - A Go [[]byte] and a Go [string] are both a Rocq [string] (a
      sequence of 8-bit characters).
    - A Go [error] is [option error]; [None] is [nil].
    - A Go [int] is a [Z]; the one arithmetic operation of the engine
      ([depth+1]) is written with its 64-bit wrap-around.
    - [log.Printf] and [fmt.Printf] have no effect on the state that is
      modelled and are left out, and so is closing the response body;
      [log.Fatalf], [panic] and a nil pointer dereference end the
      process and are the outcome [Abort]. *)

From stdpp Require Import base option list strings gmap fin_maps.
From Stdlib Require Import ZArith Lia Ascii.

Local Open Scope string_scope.
Local Open Scope Z_scope.

Abbreviation bytes := string (only parsing).

(** ** Errors and outcomes *)

(** [ErrRetryRequest] is the sentinel of the engine; [ErrNotFound] is
    [leveldb.ErrNotFound]; every other error value is an [ErrOther]. *)
Inductive error : Type :=
| ErrRetryRequest
| ErrNotFound
| ErrOther (msg : string).

#[global] Instance error_eq_dec : EqDecision error.
Proof. solve_decision. Defined.

(** How a call ends: it returns, or the whole process stops. *)
Inductive outcome (A : Type) : Type :=
| Return (a : A)
| Abort (why : string).
Arguments Return {A} a.
Arguments Abort {A} why.

(** Go's [int] on the 64-bit platforms the crawler is built for. *)
Definition int_wrap (z : Z) : Z := (z + 2 ^ 63) mod 2 ^ 64 - 2 ^ 63.
Definition int_add (a b : Z) : Z := int_wrap (a + b).
Definition int_range (z : Z) : Prop := - 2 ^ 63 <= z < 2 ^ 63.

(** ** LevelDB and the gob object store *)

Module leveldb.
(** The contents of the database.  I/O failures are outside the model:
    [Put] always succeeds and [Get] fails only on a missing key. *)
Abbreviation DB := (gmap string string) (only parsing).

Definition Get (db : DB) (key : bytes) : error + bytes :=
  match db !! key with
  | Some data => inr data
  | None => inl ErrNotFound
  end.

Definition Put (db : DB) (key value : bytes) : option error * DB :=
  (None, <[key := value]> db).
End leveldb.

Module gob.
(** [Encode] is [gob.NewEncoder(&b).Encode(obj)] followed by [b.Bytes()].
    [Decode data out] is [gob.NewDecoder(r).Decode(&out)]: it
    returns the error and what [out] holds afterwards. *)
Class Codec (T : Type) : Type := {
  Encode : T -> error + bytes;
  Decode : bytes -> T -> option error * T;
}.

(** The contract of the encoding: what was encoded is what a decoder
    reads into a fresh (zero) value of the same type. *)
Definition round_trips {T} `{Codec T} (zero : T) : Prop :=
  forall (v : T) (b : bytes), Encode v = inr b -> Decode b zero = (None, v).
End gob.

Section gobDB.
Context {T : Type} `{gob.Codec T}.

Definition PutObj (db : leveldb.DB) (key : bytes) (obj : T)
  : option error * leveldb.DB :=
  match gob.Encode obj with
  | inl err => (Some err, db)
  | inr b => leveldb.Put db key b
  end.

Definition GetObj (db : leveldb.DB) (key : bytes) (obj : T)
  : option error * T :=
  match leveldb.Get db key with
  | inl err => (Some err, obj)
  | inr data =>
      gob.Decode data obj
  end.

(** A sequence of writes through the object store, in order; a write
    that fails leaves the store as it was. *)
Definition putAll (kvs : list (bytes * T)) (db : leveldb.DB) : leveldb.DB :=
  foldl (fun m kv => snd (PutObj m kv.1 kv.2)) db kvs.
End gobDB.


(** ** The libraries the engine calls *)

Module url.
(** [net/url]'s [URL] struct, with the fields the engine and its scopes
    read. *)
Record URL : Type := {
  Scheme : string;
  Host : string;
  Path : string;
  RawQuery : string;
  Fragment : string;
}.

(** [String] is the method [String] of a URL, [Parse] the package
    function [url.Parse], [URL_Parse] the method [Parse] of a URL, which
    resolves a reference against the receiver. *)
Class Lib : Type := {
  String : URL -> string;
  Parse : string -> error + URL;
  URL_Parse : URL -> string -> error + URL;
}.
End url.

Module purell.
Inductive NormalizationFlags : Type :=
| FlagsSafe
| FlagRemoveDotSegments
| FlagRemoveDuplicateSlashes
| FlagRemoveFragment
| FlagSortQuery.

(** [NormalizeURL u flags], with the or-ed flags as a list. *)
Class Lib : Type := {
  NormalizeURL : url.URL -> list NormalizationFlags -> string;
}.
End purell.

Module json.
(** [Marshal] is [json.Marshal(&v)]; [Unmarshal data out] is
    [json.Unmarshal(data, &out)]: the error and what [out] holds
    afterwards. *)
Class Codec (T : Type) : Type := {
  Marshal : T -> error + bytes;
  Unmarshal : bytes -> T -> option error * T;
}.
End json.

Module jq.
(** The [jobqueue.Queue] interface, on a queue state [Q]: [Add] returns
    its error and the queue afterwards.  A [Job] is seen through its
    payload only. *)
Class Queue (Q : Type) : Type := {
  Add : Q -> bytes -> bytes -> option error * Q;
}.

Record Job : Type := { Data : bytes }.
End jq.

Module http.
Abbreviation Header := (gmap string (list string)) (only parsing).

(** [Header.Get] with a key in canonical form (the engine asks for
    [Location] only): the first value, or the empty string. *)
Definition Header_Get (h : Header) (key : string) : string :=
  match h !! key with
  | Some (v :: _) => v
  | _ => ""
  end.

Record Request : Type := { Request_URL : url.URL }.

Record Response : Type := {
  StatusCode : Z;
  Header_ : Header;
  Response_Request : Request;
}.

Definition StatusTooManyRequests : Z := 429.
End http.

(** ** The data model of the engine *)

Record Outlink : Type := {
  link_URL : url.URL;
  Tag : Z;
}.

Definition TagPrimary : Z := 0.
Definition TagRelated : Z := 1.

(** [CrawledAt] is a [time.Time], taken as an instant on the integer
    line. *)
Record URLInfo : Type := {
  URL : string;
  StatusCode : Z;
  CrawledAt : Z;
  Error : string;
}.

(** What [var info URLInfo] declares. *)
Definition URLInfo_zero : URLInfo :=
  {| URL := ""; StatusCode := 0; CrawledAt := 0; Error := "" |}.

Record queueItem : Type := {
  item_URL : string;
  Depth : Z;
}.

Definition queueItem_zero : queueItem := {| item_URL := ""; Depth := 0 |}.

(** ** Handlers

    A [Handler] is given the crawler, and what it can do with it is call
    [Enqueue] (the store and the queue are private fields).  A handler
    invocation is therefore a program over that one operation: it ends
    with an error value, or calls [Enqueue] and goes on with the error
    the call returned, or stops the process. *)
Inductive hprog : Type :=
| HReturn (err : option error)
| HEnqueue (link : Outlink) (depth : Z) (k : option error -> hprog)
| HAbort (why : string).

(** [Handle(c, u, depth, resp, err)], without the crawler argument. *)
Definition Handler : Type :=
  string -> Z -> option http.Response -> option error -> hprog.

(** Sequencing: run [p], hand its result to [k]. *)
Fixpoint hbind (p : hprog) (k : option error -> hprog) : hprog :=
  match p with
  | HReturn err => k err
  | HEnqueue link depth k' => HEnqueue link depth (fun e => hbind (k' e) k)
  | HAbort why => HAbort why
  end.

(** ** The crawler

    The Go struct holds pointers to the store and the queue, whose
    contents change, next to fields that are fixed at construction.  The
    fixed fields are the record [Crawler]; the contents behind the
    pointers are the [State]. *)
Record Crawler : Type := {
  seeds : list url.URL;
  scope : Outlink -> Z -> bool;
  fetcher : string -> option http.Response * option error;
  handler : Handler;
}.

(** The calls that reached the queue and the store, oldest first.  This
    is ghost state: no operation reads it. *)
Inductive Event : Type :=
| EvAdd (item : queueItem) (tag data : bytes) (err : option error)
| EvPutObj (key : bytes) (info : URLInfo) (err : option error).

Record State (Q : Type) : Type := {
  db : leveldb.DB;
  queue : Q;
  calls : list Event;
}.
Arguments db {Q} _.
Arguments queue {Q} _.
Arguments calls {Q} _.
Arguments Build_State {Q} _ _ _.

(** ** The middlewares *)

Section Middlewares.
Context `{url.Lib}.

Definition FollowRedirects (wrap : Handler) : Handler :=
  fun u depth resp err =>
    hbind (wrap u depth resp err) (fun herr =>
      match herr with
      | Some e => HReturn (Some e)
      | None =>
          match err, resp with
          | Some _, _ => HReturn None
          | None, None => HAbort "nil pointer dereference"
          | None, Some r =>
              let location := http.Header_Get (http.Header_ r) "Location" in
              if (300 <=? http.StatusCode r) && (http.StatusCode r <? 400)
                 && negb (String.eqb location "")
              then
                match url.URL_Parse (http.Request_URL (http.Response_Request r))
                                    location with
                | inl uerr => HReturn None
                | inr locationURL =>
                    HEnqueue {| link_URL := locationURL; Tag := TagPrimary |}
                             (int_add depth 1) HReturn
                end
              else HReturn None
          end
      end).

Definition FilterErrors (wrap : Handler) : Handler :=
  fun u depth resp err =>
    match err, resp with
    | Some _, _ => HReturn None
    | None, None => HAbort "nil pointer dereference"
    | None, Some r =>
        if 400 <=? http.StatusCode r then HReturn None
        else wrap u depth resp None
    end.

Definition HandleRetries (wrap : Handler) : Handler :=
  fun u depth resp err =>
    match err, resp with
    | Some _, _ => HReturn (Some ErrRetryRequest)
    | None, None => HAbort "nil pointer dereference"
    | None, Some r =>
        if (http.StatusCode r =? http.StatusTooManyRequests)
           || (500 <=? http.StatusCode r)
        then HReturn (Some ErrRetryRequest)
        else wrap u depth resp None
    end.
End Middlewares.

(** ** The engine *)

Section Engine.
Context {Q : Type} `{jq.Queue Q} `{gob.Codec URLInfo} `{json.Codec queueItem}.
Context `{url.Lib} `{purell.Lib}.

Definition normalizeURL (u : url.URL) : outcome url.URL :=
  let urlStr :=
    purell.NormalizeURL u
      [purell.FlagsSafe; purell.FlagRemoveDotSegments;
       purell.FlagRemoveDuplicateSlashes; purell.FlagRemoveFragment;
       purell.FlagSortQuery] in
  match url.Parse urlStr with
  | inr u2 => Return u2
  | inl err => Abort "panic: normalized URL does not parse"
  end.

(** The key [fmt.Sprintf("url/%s", s)]. *)
Definition urlKey (s : string) : bytes := "url/" +:+ s.

(** [c.db.PutObj(key, &info)], with its entry in the ghost log. *)
Definition putInfo (key : bytes) (info : URLInfo) (st : State Q)
  : option error * State Q :=
  let '(err, db') := PutObj (db st) key info in
  (err, Build_State db' (queue st) (calls st ++ [EvPutObj key info err])).

Definition addNewURLToQueue (uri : url.URL) (depth : Z) (st : State Q)
  : option error * State Q :=
  let item := {| item_URL := url.String uri; Depth := depth |} in
  match json.Marshal item with
  | inl err => (Some err, st)
  | inr data =>
      let tag := url.Host uri in
      let '(err, q') := jq.Add (queue st) tag data in
      (err, Build_State (db st) q' (calls st ++ [EvAdd item tag data err]))
  end.

(** [Enqueue] runs its read-check-write under [enqueueMx]; calls are
    taken one after the other here. *)
Definition Enqueue (c : Crawler) (link : Outlink) (depth : Z) (st : State Q)
  : outcome (option error) * State Q :=
  match normalizeURL (link_URL link) with
  | Abort why => (Abort why, st)
  | Return u =>
      let link := {| link_URL := u; Tag := Tag link |} in
      if negb (scope c link depth) then (Return None, st)
      else
        let ukey := urlKey (url.String (link_URL link)) in
        match GetObj (db st) ukey URLInfo_zero with
        | (None, _) => (Return None, st)
        | (Some _, info) =>
            match addNewURLToQueue (link_URL link) depth st with
            | (Some err, st1) => (Return (Some err), st1)
            | (None, st1) =>
                let '(err, st2) := putInfo ukey info st1 in
                (Return err, st2)
            end
        end
  end.

(** Running a handler invocation against the crawler. *)
Fixpoint hrun (c : Crawler) (p : hprog) (st : State Q)
  : outcome (option error) * State Q :=
  match p with
  | HReturn err => (Return err, st)
  | HAbort why => (Abort why, st)
  | HEnqueue link depth k =>
      match Enqueue c link depth st with
      | (Return err, st1) => hrun c (k err) st1
      | (Abort why, st1) => (Abort why, st1)
      end
  end.

(** The [Enqueue] calls a handler invocation makes, in order. *)
Fixpoint hcalls (c : Crawler) (p : hprog) (st : State Q)
  : list (Outlink * Z) :=
  match p with
  | HReturn _ | HAbort _ => []
  | HEnqueue link depth k =>
      (link, depth) ::
      match Enqueue c link depth st with
      | (Return err, st1) => hcalls c (k err) st1
      | (Abort _, _) => []
      end
  end.

(** [now] is what [time.Now()] returns in this call. *)
Definition handleURL (c : Crawler) (now : Z) (item : queueItem) (st : State Q)
  : outcome (option error) * State Q :=
  let urlkey := urlKey (item_URL item) in
  let '(_, info) := GetObj (db st) urlkey URLInfo_zero in
  let info := {| URL := item_URL item; StatusCode := StatusCode info;
                 CrawledAt := now; Error := Error info |} in
  match fetcher c (item_URL item) with
  | (None, None) => (Abort "nil pointer dereference", st)
  | (httpResp, httpErr) =>
      let info :=
        match httpErr, httpResp with
        | None, Some r =>
            {| URL := URL info; StatusCode := http.StatusCode r;
               CrawledAt := CrawledAt info; Error := Error info |}
        | _, _ => info
        end in
      match hrun c (handler c (item_URL item) (Depth item) httpResp httpErr) st with
      | (Abort why, st1) => (Abort why, st1)
      | (Return None, st1) =>
          let '(err, st2) := putInfo urlkey info st1 in
          (Return err, st2)
      | (Return (Some ErrRetryRequest), st1) =>
          (Return (Some ErrRetryRequest), st1)
      | (Return (Some _), st1) =>
          (Abort "fatal error in handling", st1)
      end
  end.

(** The record [handleURL] has in hand when the handler returns: the one
    read from the store (the zero record if there is none), with the
    URL of the item, the time of the call and, if the fetch did not
    fail, the status of the response. *)
Definition updatedInfo (c : Crawler) (now : Z) (item : queueItem) (st : State Q)
  : URLInfo :=
  let old := snd (GetObj (db st) (urlKey (item_URL item)) URLInfo_zero) in
  {| URL := item_URL item;
     StatusCode := match fetcher c (item_URL item) with
                   | (Some r, None) => http.StatusCode r
                   | _ => StatusCode old
                   end;
     CrawledAt := now;
     Error := Error old |}.

Definition handleJob (c : Crawler) (now : Z) (job : jq.Job) (st : State Q)
  : outcome (option error) * State Q :=
  match json.Unmarshal (jq.Data job) queueItem_zero with
  | (Some err, _) => (Return None, st)
  | (None, item) => handleURL c now item st
  end.

(** A run of [Enqueue] calls, one after the other, with what each
    returned; the run ends where the process does. *)
Fixpoint enqueueAll (c : Crawler) (reqs : list (Outlink * Z)) (st : State Q)
  : list (outcome (option error)) * State Q :=
  match reqs with
  | [] => ([], st)
  | (link, depth) :: reqs' =>
      match Enqueue c link depth st with
      | (Return err, st1) =>
          let '(rs, st2) := enqueueAll c reqs' st1 in (Return err :: rs, st2)
      | (Abort why, st1) => ([Abort why], st1)
      end
  end.

(** The canonical string of a link, when normalization returns. *)
Definition canonical (link : Outlink) : option string :=
  match normalizeURL (link_URL link) with
  | Return u => Some (url.String u)
  | Abort _ => None
  end.

(** Whether [Enqueue] finds the link in scope. *)
Definition inScope (c : Crawler) (link : Outlink) (depth : Z) : bool :=
  match normalizeURL (link_URL link) with
  | Return u => scope c {| link_URL := u; Tag := Tag link |} depth
  | Abort _ => false
  end.
End Engine.

(** Reading the ghost log. *)
Definition isAddFor (s : string) (ev : Event) : bool :=
  match ev with
  | EvAdd item _ _ _ => String.eqb (item_URL item) s
  | EvPutObj _ _ _ => false
  end.

Definition isPutAt (key : bytes) (ev : Event) : bool :=
  match ev with
  | EvAdd _ _ _ _ => false
  | EvPutObj k _ _ => String.eqb k key
  end.

Definition countAdds (s : string) (evs : list Event) : nat :=
  length (filter (fun ev => isAddFor s ev = true) evs).

Definition countPuts (key : bytes) (evs : list Event) : nat :=
  length (filter (fun ev => isPutAt key ev = true) evs).

(** ** Stores in which no record carries an error text *)

Section Clean.
Context {Q : Type} `{gob.Codec URLInfo}.

(** Every stored value is the encoding of a record whose [Error] is
    empty. *)
Definition cleanStore (m : leveldb.DB) : Prop :=
  forall k b, m !! k = Some b ->
    exists i : URLInfo, gob.Encode i = inr b /\ Error i = "".

(** Every record handed to [PutObj] so far has an empty [Error]. *)
Definition cleanPuts (evs : list Event) : Prop :=
  forall k i e, EvPutObj k i e ∈ evs -> Error i = "".

Definition clean (st : State Q) : Prop :=
  cleanStore (db st) /\ cleanPuts (calls st).
End Clean.

(** What the engine does to the store: [Enqueue] calls and jobs taken
    from the queue, in some order. *)
Inductive op : Type :=
| OpEnqueue (link : Outlink) (depth : Z)
| OpJob (now : Z) (job : jq.Job).

Section Runs.
Context {Q : Type} `{jq.Queue Q} `{gob.Codec URLInfo} `{json.Codec queueItem}.
Context `{url.Lib} `{purell.Lib}.

Definition step (c : Crawler) (st : State Q) (o : op) : State Q :=
  match o with
  | OpEnqueue link depth => snd (Enqueue c link depth st)
  | OpJob now job => snd (handleJob c now job st)
  end.

Definition run (c : Crawler) (ops : list op) (st : State Q) : State Q :=
  foldl (step c) st ops.

(** The store holds a well-formed record for the canonical URL [s]. *)
Definition known (s : string) (m : leveldb.DB) : Prop :=
  exists (i : URLInfo) (b : bytes), m !! urlKey s = Some b /\ gob.Encode i = inr b.

(** Some request of the run is for the canonical URL [s] and in scope. *)
Definition occursInScope (c : Crawler) (s : string) (reqs : list (Outlink * Z))
  : Prop :=
  exists link depth,
    (link, depth) ∈ reqs /\ canonical link = Some s /\ inScope c link depth = true.

(** Every call of the run returned nil. *)
Definition allNil (reqs : list (Outlink * Z))
    (rs : list (outcome (option error))) : Prop :=
  rs = (fun _ => Return None) <$> reqs.

End Runs.

(** ** The rest of the engine: seeds, workers *)

Module jqw.
(** The consuming side of the job queue, on the queue state [Q]: [Next]
    hands out a job or fails (with [io.EOF], [context.Canceled] or
    another error); [Done] is the method of the job that reports the
    result of handling it. *)
Class Consumer (Q : Type) : Type := {
  Next : Q -> (error + jq.Job) * Q;
  Done : Q -> jq.Job -> option error -> option error * Q;
}.
End jqw.

Section Engine_rest.
Context {Q : Type} `{jq.Queue Q} `{jqw.Consumer Q}.
Context `{gob.Codec URLInfo} `{json.Codec queueItem}.
Context `{url.Lib} `{purell.Lib}.

(** The contract of the JSON encoding of queue items: what was
    marshalled is what is unmarshalled into a fresh item. *)
Definition json_round_trips : Prop :=
  forall (item : queueItem) (data : bytes),
    json.Marshal item = inr data ->
    json.Unmarshal data queueItem_zero = (None, item).

Definition Must (err : option error) : outcome unit :=
  match err with
  | None => Return tt
  | Some _ => Abort "fatal error"
  end.

(** The loop of [MustParseURLs], with the slice built so far. *)
Fixpoint MustParseURLs_from (parsed : list url.URL) (urls : list string)
  : outcome (list url.URL) :=
  match urls with
  | [] => Return parsed
  | s :: urls' =>
      match url.Parse s with
      | inl err => Abort "error parsing URL"
      | inr u => MustParseURLs_from (parsed ++ [u]) urls'
      end
  end.

Definition MustParseURLs (urls : list string) : outcome (list url.URL) :=
  MustParseURLs_from [] urls.

(** The first loop of [Run]: every seed is enqueued as a primary link at
    depth 0, and a failure is fatal. *)
Fixpoint Run_seeds_from (c : Crawler) (us : list url.URL) (st : State Q)
  : outcome unit * State Q :=
  match us with
  | [] => (Return tt, st)
  | u :: us' =>
      match Enqueue c {| link_URL := u; Tag := TagPrimary |} 0 st with
      | (Abort why, st1) => (Abort why, st1)
      | (Return err, st1) =>
          match Must err with
          | Abort why => (Abort why, st1)
          | Return _ => Run_seeds_from c us' st1
          end
      end
  end.

Definition Run_seeds (c : Crawler) (st : State Q) : outcome unit * State Q :=
  Run_seeds_from c (seeds c) st.

(** The requests the seed loop makes. *)
Definition seedRequests (us : list url.URL) : list (Outlink * Z) :=
  (fun u => ({| link_URL := u; Tag := TagPrimary |}, 0)) <$> us.

Definition withQueue (q : Q) (st : State Q) : State Q :=
  Build_State (db st) q (calls st).

(** One worker.  [clock] holds what [time.Now()] returns in the
    successive jobs; a worker that has handled as many jobs as [clock]
    is long is still running, which is the result [None]. *)
Fixpoint worker (c : Crawler) (clock : list Z) (st : State Q)
  : option (outcome unit) * State Q :=
  match clock with
  | [] => (None, st)
  | now :: clock' =>
      match jqw.Next (queue st) with
      | (inl err, q1) => (Some (Return tt), withQueue q1 st)
      | (inr job, q1) =>
          match handleJob c now job (withQueue q1 st) with
          | (Abort why, st1) => (Some (Abort why), st1)
          | (Return res, st1) =>
              let '(_, q2) := jqw.Done (queue st1) job res in
              worker c clock' (withQueue q2 st1)
          end
      end
  end.

(** [Run(1)]: the seeds, then the one worker, which [Run] waits for. *)
Definition Run1 (c : Crawler) (clock : list Z) (st : State Q)
  : option (outcome unit) * State Q :=
  match Run_seeds c st with
  | (Abort why, st1) => (Some (Abort why), st1)
  | (Return _, st1) => worker c clock st1
  end.

(** *** What the store and the log of an engine look like *)

(** Every key of the store is the key of some URL. *)
Definition keysOK (m : leveldb.DB) : Prop :=
  forall k, is_Some (m !! k) -> exists s, k = urlKey s.

(** Every [Add] in the log carries the marshalled item of a link that
    normalization returned and the scope admitted at the item's depth,
    under the host of that link as tag. *)
Definition addsOK (c : Crawler) (evs : list Event) : Prop :=
  forall item tag data err, EvAdd item tag data err ∈ evs ->
    exists link u,
      normalizeURL (link_URL link) = Return u /\
      scope c {| link_URL := u; Tag := Tag link |} (Depth item) = true /\
      item_URL item = url.String u /\
      tag = url.Host u /\
      json.Marshal item = inr data.

Definition sound (c : Crawler) (st : State Q) : Prop :=
  keysOK (db st) /\ addsOK c (calls st).

(** The canonical URL [s] is known and [n] calls of [Add] were made for
    it. *)
Definition settled (s : string) (n : nat) (st : State Q) : Prop :=
  known s (db st) /\ countAdds s (calls st) = n.
End Engine_rest.

(** ** Link extraction (package [analysis]) *)

Module goquery.
(** [FindAttr doc tag attr] stands for
    [doc.Find(tag[attr]).Each(...)] collecting [s.Attr(attr)]: the
    values of [attr] on the [tag] elements that have it, in document
    order. *)
Class Lib (Document : Type) : Type := {
  NewDocumentFromResponse : http.Response -> error + Document;
  FindAttr : Document -> string -> string -> list string;
}.
End goquery.

Module css.
(** [ReadAll] is [ioutil.ReadAll(resp.Body)]; [urlcssRx data] is the
    first group of every match of the regular expression [urlcssRx] in
    [data], in order. *)
Class Lib : Type := {
  ReadAll : http.Response -> error + string;
  urlcssRx : string -> list string;
}.
End css.

Section Analysis.
Context {Document : Type} `{goquery.Lib Document} `{css.Lib} `{url.Lib}.

Definition linkMatches : list (string * string) :=
  [("a", "href"); ("link", "href"); ("img", "src"); ("script", "src")].

(** The first half of [GetLinks]: the raw links of the response, by
    content type. *)
Definition outlinksOf (resp : http.Response) : error + list string :=
  let ctype := http.Header_Get (http.Header_ resp) "Content-Type" in
  if String.prefix "text/html" ctype then
    match goquery.NewDocumentFromResponse resp with
    | inl err => inl err
    | inr doc =>
        inr (concat ((fun lm => goquery.FindAttr doc lm.1 lm.2) <$> linkMatches))
    end
  else if String.prefix "text/css" ctype then
    match css.ReadAll resp with
    | inr data => inr (css.urlcssRx data)
    | inl _ => inr []
    end
  else inr [].

(** The map [links] after the loop over the raw links. *)
Definition linkMap (base : url.URL) (outlinks : list string)
  : gmap string url.URL :=
  foldl (fun links val =>
           match url.URL_Parse base val with
           | inr linkurl => <[url.String linkurl := linkurl]> links
           | inl _ => links
           end) ∅ outlinks.

(** The second half: the values of the map.  Go ranges over a map in an
    unspecified order; the order of this list is one of them. *)
Definition uniquify (base : url.URL) (outlinks : list string) : list url.URL :=
  (map_to_list (linkMap base outlinks)).*2.

Definition GetLinks (resp : http.Response) : error + list url.URL :=
  match outlinksOf resp with
  | inl err => inl err
  | inr outlinks =>
      inr (uniquify (http.Request_URL (http.Response_Request resp)) outlinks)
  end.
End Analysis.

(** ** Stand-ins for the libraries

    Small implementations of the interfaces, to run the engine on
    concrete inputs.  No theorem about the engine depends on them: each
    is stated for every implementation of the interfaces. *)

Module Sim.

(** A queue that turns down the first [outages] calls (as a queue whose
    deadline passes would) and keeps what it accepts, in order. *)
Record flaky : Type := {
  outages : nat;
  entries : list (bytes * bytes);
}.

#[export] Instance flaky_queue : jq.Queue flaky := {
  Add q tag data :=
    match outages q with
    | O => (None, {| outages := O; entries := entries q ++ [(tag, data)] |})
    | S n => (Some (ErrOther "context deadline exceeded"),
              {| outages := n; entries := entries q |})
    end
}.

(** A serialization through stdpp's [Countable]: the digits of the code
    of a value, least significant first. *)
Fixpoint digits (p : positive) : string :=
  match p with
  | xH => ""
  | xO p' => String "0"%char (digits p')
  | xI p' => String "1"%char (digits p')
  end.

Fixpoint undigits (s : string) : option positive :=
  match s with
  | "" => Some xH
  | String a s' =>
      if Ascii.eqb a "0"%char then xO <$> undigits s'
      else if Ascii.eqb a "1"%char then xI <$> undigits s'
      else None
  end.

Definition serialize {T} `{Countable T} (v : T) : string := digits (encode v).

Definition deserialize {T} `{Countable T} (s : string) : option T :=
  undigits s ≫= decode.

#[export] Instance URLInfo_eq_dec : EqDecision URLInfo.
Proof. solve_decision. Defined.

#[export] Instance URLInfo_countable : Countable URLInfo.
Proof.
  refine (inj_countable'
            (fun i => (URL i, StatusCode i, CrawledAt i, Error i))
            (fun t => match t with (a, b, c, d) => Build_URLInfo a b c d end) _).
  by intros [].
Defined.

#[export] Instance queueItem_eq_dec : EqDecision queueItem.
Proof. solve_decision. Defined.

#[export] Instance queueItem_countable : Countable queueItem.
Proof.
  refine (inj_countable'
            (fun i => (item_URL i, Depth i))
            (fun t => match t with (a, b) => Build_queueItem a b end) _).
  by intros [].
Defined.

#[export] Instance gob_URLInfo : gob.Codec URLInfo := {
  Encode v := inr (serialize v);
  Decode data out :=
    match deserialize data with
    | Some v => (None, v)
    | None => (Some (ErrOther "gob: malformed data"), out)
    end
}.

#[export] Instance json_queueItem : json.Codec queueItem := {
  Marshal v := inr (serialize v);
  Unmarshal data out :=
    match deserialize data with
    | Some v => (None, v)
    | None => (Some (ErrOther "json: malformed data"), out)
    end
}.

(** URLs of the form [scheme://host/path]; a reference is such a URL or
    an absolute path. *)
Definition lower (a : Ascii.ascii) : Ascii.ascii :=
  let n := Ascii.nat_of_ascii a in
  if (65 <=? n)%nat && (n <=? 90)%nat then Ascii.ascii_of_nat (n + 32) else a.

Fixpoint lowercase (s : string) : string :=
  match s with
  | "" => ""
  | String a s' => String (lower a) (lowercase s')
  end.

Fixpoint hasSpace (s : string) : bool :=
  match s with
  | "" => false
  | String a s' => Ascii.eqb a " "%char || hasSpace s'
  end.

Definition splitAt (sep s : string) : option (string * string) :=
  match String.index 0 sep s with
  | Some i =>
      Some (String.substring 0 i s,
            String.substring (i + String.length sep)
                             (String.length s - (i + String.length sep)) s)
  | None => None
  end.

Definition parse (s : string) : error + url.URL :=
  if hasSpace s then inl (ErrOther "invalid character in URL")
  else
    match splitAt "://" s with
    | None => inl (ErrOther "missing protocol scheme")
    | Some (sch, rest) =>
        match splitAt "/" rest with
        | None => inr (url.Build_URL sch rest "" "" "")
        | Some (h, p) => inr (url.Build_URL sch h ("/" +:+ p) "" "")
        end
    end.

Definition render (u : url.URL) : string :=
  url.Scheme u +:+ "://" +:+ url.Host u +:+ url.Path u.

#[export] Instance url_lib : url.Lib := {
  String := render;
  Parse := parse;
  URL_Parse base ref :=
    if String.prefix "/" ref
    then if hasSpace ref then inl (ErrOther "invalid character in URL")
         else inr (url.Build_URL (url.Scheme base) (url.Host base) ref "" "")
    else parse ref
}.

(** Lower-cases the scheme and the host and drops the fragment. *)
#[export] Instance purell_lib : purell.Lib := {
  NormalizeURL u flags :=
    render (url.Build_URL (lowercase (url.Scheme u)) (lowercase (url.Host u))
                          (url.Path u) (url.RawQuery u) "")
}.

(** A depth scope: admits a link iff its depth is at most [max]. *)
Definition depthScope (max : Z) : Outlink -> Z -> bool :=
  fun _ depth => depth <=? max.

Definition mkURL (sch host path : string) : url.URL :=
  url.Build_URL sch host path "" "".

Definition page (u : url.URL) (status : Z) (hdr : http.Header) : http.Response :=
  {| http.StatusCode := status; http.Header_ := hdr;
     http.Response_Request := {| http.Request_URL := u |} |}.

(** A handler that accepts everything, and a crawler around it whose
    fetcher answers every URL with [resp]. *)
Definition accept : Handler := fun _ _ _ _ => HReturn None.

Definition crawler (max : Z) (h : Handler)
    (resp : option http.Response * option error) : Crawler :=
  {| seeds := []; scope := depthScope max; fetcher := fun _ => resp;
     handler := h |}.

Definition fresh (n : nat) : State flaky :=
  Build_State ∅ {| outages := n; entries := [] |} [].

Definition home : Outlink := {| link_URL := mkURL "http" "A" "/"; Tag := TagPrimary |}.
Definition home' : Outlink := {| link_URL := mkURL "HTTP" "a" "/"; Tag := TagRelated |}.
Definition other : Outlink := {| link_URL := mkURL "http" "b" "/x"; Tag := TagPrimary |}.

(** The consuming side of the flaky queue: the oldest entry first; a
    job reported with an error goes back to the end of the queue. *)
#[export] Instance flaky_consumer : jqw.Consumer flaky := {
  Next q :=
    match entries q with
    | [] => (inl (ErrOther "EOF"), q)
    | (tag, data) :: rest =>
        (inr {| jq.Data := data |}, {| outages := outages q; entries := rest |})
    end;
  Done q job res :=
    match res with
    | None => (None, q)
    | Some _ =>
        (None, {| outages := outages q;
                  entries := entries q ++ [("retry", jq.Data job)] |})
    end
}.

Definition withSeeds (us : list url.URL) (c : Crawler) : Crawler :=
  {| seeds := us; scope := scope c; fetcher := fetcher c; handler := handler c |}.

(** A small web for the link extractor: a document is the list of its
    (tag, attribute, value) triples, and the document of a response is
    that of its request URL.  Style sheets cannot be read. *)
Definition site (u : string) : list (string * string * string) :=
  if String.eqb u "http://a/" then
    [("a", "href", "/x"); ("img", "src", "http://b/logo.png");
     ("a", "href", "/x"); ("a", "href", "bad link"); ("a", "href", "http://A/x")]
  else [].

#[export] Instance goquery_lib : goquery.Lib (list (string * string * string)) := {
  NewDocumentFromResponse r :=
    inr (site (render (http.Request_URL (http.Response_Request r))));
  FindAttr doc tag attr :=
    omap (fun e => match e with
                   | (t, a, v) =>
                       if String.eqb t tag && String.eqb a attr
                       then Some v else None
                   end) doc
}.

#[export] Instance css_lib : css.Lib := {
  ReadAll r := inl (ErrOther "unexpected EOF");
  urlcssRx data := []
}.

(** More inputs. *)

Definition redirect : http.Response :=
  page (mkURL "http" "a" "/") 301 {[ "Location" := ["/new"] ]}.

Definition unavailable : http.Response := page (mkURL "http" "a" "/") 503 ∅.

Definition htmlPage : http.Response :=
  page (mkURL "http" "a" "/") 200
       {[ "Content-Type" := ["text/html; charset=utf-8"] ]}.

Definition rootItem : queueItem := {| item_URL := "http://a/"; Depth := 0 |}.

Definition twoSeeds : Crawler :=
  withSeeds [mkURL "http" "A" "/"; mkURL "HTTP" "a" "/"; mkURL "http" "b" "/x"]
            (crawler 10 (HandleRetries (FollowRedirects (FilterErrors accept)))
                     (Some redirect, None)).

End Sim.

(** * Properties *)

Local Open Scope list_scope.

(** ** Integers *)

Lemma int_add_succ (d : Z) :
  int_range d -> d <> 2 ^ 63 - 1 -> int_add d 1 = d + 1.
Proof.
  unfold int_range, int_add, int_wrap. intros Hr Hne.
  rewrite Z.mod_small; lia.
Qed.

Lemma int_add_wraps : int_add (2 ^ 63 - 1) 1 = - 2 ^ 63.
Proof. reflexivity. Qed.

(** ** The object store *)

Section gobDB_facts.
Context {T : Type} `{gob.Codec T}.

Lemma PutObj_ok (db db' : leveldb.DB) (k : bytes) (v : T) :
  PutObj db k v = (None, db') ->
  exists b, gob.Encode v = inr b /\ db' = <[k := b]> db.
Proof.
  unfold PutObj, leveldb.Put. destruct (gob.Encode v) as [e|b]; intros Heq.
  - discriminate.
  - injection Heq as <-. by exists b.
Qed.

Lemma PutObj_fail (db db' : leveldb.DB) (k : bytes) (v : T) (e : error) :
  PutObj db k v = (Some e, db') -> gob.Encode v = inl e /\ db' = db.
Proof.
  unfold PutObj, leveldb.Put. destruct (gob.Encode v) as [e'|b]; intros Heq.
  - by injection Heq as <- <-.
  - discriminate.
Qed.

Lemma PutObj_other (db : leveldb.DB) (k k' : bytes) (v : T) :
  k <> k' -> snd (PutObj db k v) !! k' = db !! k'.
Proof.
  intros Hne. unfold PutObj, leveldb.Put.
  destruct (gob.Encode v); simpl; [done|]. by rewrite lookup_insert_ne.
Qed.

Lemma GetObj_missing (db : leveldb.DB) (k : bytes) (out : T) :
  db !! k = None -> GetObj db k out = (Some ErrNotFound, out).
Proof. intros Hk. unfold GetObj, leveldb.Get. by rewrite Hk. Qed.

Lemma GetObj_present (db : leveldb.DB) (k b : bytes) (out : T) :
  db !! k = Some b -> GetObj db k out = gob.Decode b out.
Proof. intros Hk. unfold GetObj, leveldb.Get. by rewrite Hk. Qed.

Lemma putAll_other (kvs : list (bytes * T)) (db : leveldb.DB) (k : bytes) :
  k ∉ kvs.*1 -> putAll kvs db !! k = db !! k.
Proof.
  revert db. induction kvs as [|[k' v] kvs IH]; intros db Hk; [done|].
  simpl in Hk. apply not_elem_of_cons in Hk as [Hne Hk].
  unfold putAll in *. simpl. rewrite IH by done.
  by apply PutObj_other.
Qed.

(** C8.  The object store round-trips values, for a codec that meets the
    gob contract: after [PutObj(k, v)] succeeds, [GetObj(k, &out)] into
    a fresh value of the same type succeeds and leaves [v] in [out].
    [GetObj] of a key that was never written (here: none of the writes
    made on an empty store was at that key) returns the not-found error
    of the store and leaves [out] as it was. *)
Theorem gobDB_round_trip (zero : T) :
  gob.round_trips zero ->
  (forall (db db' : leveldb.DB) (k : bytes) (v : T),
     PutObj db k v = (None, db') -> GetObj db' k zero = (None, v)) /\
  (forall (kvs : list (bytes * T)) (k : bytes) (out : T),
     k ∉ kvs.*1 -> GetObj (putAll kvs ∅) k out = (Some ErrNotFound, out)).
Proof.
  intros Hrt. split.
  - intros db db' k v Hput.
    apply PutObj_ok in Hput as (b & Hb & ->).
    rewrite (GetObj_present _ k b) by apply lookup_insert_eq.
    by apply Hrt.
  - intros kvs k out Hk. apply GetObj_missing.
    by rewrite putAll_other.
Qed.
End gobDB_facts.

(** ** The middlewares, as programs *)

Section Middleware_facts.
Context `{url.Lib}.

(** C4.  [HandleRetries(H)] on an invocation in which a response
    accompanies a nil fetch error: it returns [ErrRetryRequest] whatever
    [H] is (so [H] is not invoked) exactly when the fetch errored, or
    the status is 429, or the status is at least 500; in every other
    case it is [H] invoked on the same URL, depth and response with the
    fetch error replaced by nil, and returns what [H] returns. *)
Theorem HandleRetries_spec (u : string) (depth : Z)
    (resp : option http.Response) (err : option error) :
  (err = None -> is_Some resp) ->
  let retry :=
    err <> None \/
    exists r, resp = Some r /\
              (http.StatusCode r = 429 \/ 500 <= http.StatusCode r) in
  (retry <->
   forall H : Handler,
     HandleRetries H u depth resp err = HReturn (Some ErrRetryRequest)) /\
  (~ retry ->
   forall H : Handler, HandleRetries H u depth resp err = H u depth resp None).
Proof.
  intros Hresp retry. unfold HandleRetries, http.StatusTooManyRequests.
  destruct err as [e|].
  - split; [|intros Hn; exfalso; apply Hn; by left].
    split; [done|]. intros _. by left.
  - destruct (Hresp eq_refl) as [r ->].
    destruct ((http.StatusCode r =? 429) || (500 <=? http.StatusCode r)) eqn:Hc.
    + assert (Hretry : retry).
      { right. exists r. split; [done|].
        apply orb_true_iff in Hc as [Hc|Hc]; [left|right]; lia. }
      split; [done|]. intros Hn. by destruct Hn.
    + assert (Hn : ~ retry).
      { intros [Hne|(r' & [= <-] & Hs)]; [done|].
        apply orb_false_iff in Hc as [Hc1 Hc2]. lia. }
      split; [|done]. split; [done|].
      intros Hall. specialize (Hall (fun _ _ _ _ => HReturn None)).
      discriminate.
Qed.
(** [FilterErrors(H)] returns nil whatever [H] is when the fetch errored
    or the status is at least 400, and is [H] with a nil fetch error
    otherwise. *)
Lemma FilterErrors_spec (H0 : Handler) (u : string) (depth : Z)
    (r : http.Response) (err : option error) :
  (err <> None \/ 400 <= http.StatusCode r ->
   FilterErrors H0 u depth (Some r) err = HReturn None) /\
  (err = None -> http.StatusCode r < 400 ->
   FilterErrors H0 u depth (Some r) err = H0 u depth (Some r) None).
Proof.
  unfold FilterErrors. split.
  - intros [Hne|Hs]; destruct err as [e|]; try done.
    destruct (400 <=? http.StatusCode r) eqn:Hc; [done|lia].
  - intros -> Hs. destruct (400 <=? http.StatusCode r) eqn:Hc; [lia|done].
Qed.
End Middleware_facts.

(** ** The engine *)

Section Engine_facts.
Context {Q : Type} `{jq.Queue Q} `{gob.Codec URLInfo} `{json.Codec queueItem}.
Context `{url.Lib} `{purell.Lib}.
Implicit Types (c : Crawler) (st : State Q) (link : Outlink) (p : hprog).

Lemma urlKey_inj (s1 s2 : string) : urlKey s1 = urlKey s2 -> s1 = s2.
Proof. unfold urlKey. apply (inj (String.append "url/")). Qed.

(** C3.  When normalization returns [u] and the scope turns the link
    with [u] in place of its URL down at this depth, [Enqueue] returns
    nil and the state is what it was: the queue, the store and the log
    of calls to them are unchanged. *)
Theorem Enqueue_out_of_scope c link (depth : Z) st (u : url.URL) :
  normalizeURL (link_URL link) = Return u ->
  scope c {| link_URL := u; Tag := Tag link |} depth = false ->
  Enqueue c link depth st = (Return None, st).
Proof.
  intros Hn Hs. unfold Enqueue. rewrite Hn. simpl. by rewrite Hs.
Qed.

(** C7, as amended.  A job whose payload does not decode returns nil to
    the queue (a permanent error: the entry is removed), and the state
    is what it was: nothing is written to the crawl database. *)
Theorem handleJob_malformed c (now : Z) (job : jq.Job) st
    (err : error) (item : queueItem) :
  json.Unmarshal (jq.Data job) queueItem_zero = (Some err, item) ->
  handleJob c now job st = (Return None, st).
Proof. intros Hu. unfold handleJob. by rewrite Hu. Qed.

Lemma countAdds_snoc (s : string) (evs : list Event) (ev : Event) :
  countAdds s (evs ++ [ev]) =
  (countAdds s evs + (if isAddFor s ev then 1 else 0))%nat.
Proof.
  unfold countAdds. rewrite filter_app, length_app. f_equal.
  rewrite filter_cons, filter_nil.
  destruct (isAddFor s ev); by case_decide.
Qed.

Lemma countPuts_snoc (k : bytes) (evs : list Event) (ev : Event) :
  countPuts k (evs ++ [ev]) =
  (countPuts k evs + (if isPutAt k ev then 1 else 0))%nat.
Proof.
  unfold countPuts. rewrite filter_app, length_app. f_equal.
  rewrite filter_cons, filter_nil.
  destruct (isPutAt k ev); by case_decide.
Qed.

(** C9.  An in-scope URL that is not known yet, whose queue [Add]
    fails with [e]: [Enqueue] returns [e] and leaves the store as it
    was, so the record is not written; the same [Enqueue] made again
    finds no record again and calls [Add] again (the log gains a second
    [Add] for the URL), and what it does from there is what the first
    call would have done on this answer of the queue. *)
Theorem Enqueue_add_failure c link (depth : Z) st (u : url.URL)
    (gerr e : error) (info : URLInfo) (data : bytes) (q1 : Q) :
  normalizeURL (link_URL link) = Return u ->
  scope c {| link_URL := u; Tag := Tag link |} depth = true ->
  GetObj (db st) (urlKey (url.String u)) URLInfo_zero = (Some gerr, info) ->
  json.Marshal {| item_URL := url.String u; Depth := depth |} = inr data ->
  jq.Add (queue st) (url.Host u) data = (Some e, q1) ->
  let item := {| item_URL := url.String u; Depth := depth |} in
  let st1 := Build_State (db st) q1
               (calls st ++ [EvAdd item (url.Host u) data (Some e)]) in
  Enqueue c link depth st = (Return (Some e), st1) /\
  db st1 = db st /\
  let '(err2, q2) := jq.Add q1 (url.Host u) data in
  let st2 := Build_State (db st) q2
               (calls st1 ++ [EvAdd item (url.Host u) data err2]) in
  Enqueue c link depth st1 =
    match err2 with
    | Some e2 => (Return (Some e2), st2)
    | None => let '(perr, st3) := putInfo (urlKey (url.String u)) info st2 in
              (Return perr, st3)
    end /\
  countAdds (url.String u) (calls (snd (Enqueue c link depth st1))) =
    (countAdds (url.String u) (calls st) + 2)%nat.
Proof.
  intros Hn Hs Hget Hm Hadd item st1.
  assert (Hfirst : Enqueue c link depth st = (Return (Some e), st1)).
  { unfold Enqueue. rewrite Hn. simpl. rewrite Hs. simpl. rewrite Hget.
    unfold addNewURLToQueue. simpl. rewrite Hm, Hadd. done. }
  split; [done|]. split; [done|].
  destruct (jq.Add q1 (url.Host u) data) as [err2 q2] eqn:Hadd2.
  assert (Hsecond : Enqueue c link depth st1 =
    match err2 with
    | Some e2 =>
        (Return (Some e2),
         Build_State (db st) q2
           (calls st1 ++ [EvAdd item (url.Host u) data err2]))
    | None =>
        let '(perr, st3) :=
          putInfo (urlKey (url.String u)) info
            (Build_State (db st) q2
               (calls st1 ++ [EvAdd item (url.Host u) data err2])) in
        (Return perr, st3)
    end).
  { unfold Enqueue. rewrite Hn. simpl. rewrite Hs. simpl. rewrite Hget.
    unfold addNewURLToQueue. simpl. rewrite Hm, Hadd2.
    by destruct err2. }
  split; [done|]. rewrite Hsecond.
  assert (Hself : isAddFor (url.String u)
                    (EvAdd item (url.Host u) data (Some e)) = true).
  { simpl. apply String.eqb_refl. }
  destruct err2 as [e2|].
  - simpl. rewrite !countAdds_snoc. simpl. rewrite String.eqb_refl. lia.
  - unfold putInfo. simpl.
    destruct (PutObj (db st) (urlKey (url.String u)) info) as [perr db'].
    simpl. rewrite !countAdds_snoc. simpl. rewrite String.eqb_refl. lia.
Qed.

(** *** Handler programs *)

Lemma hrun_hbind c p (k : option error -> hprog) st :
  hrun c (hbind p k) st =
  match hrun c p st with
  | (Return err, st1) => hrun c (k err) st1
  | (Abort why, st1) => (Abort why, st1)
  end.
Proof.
  revert st. induction p as [err|l d k' IH|why]; intros st; simpl; try done.
  destruct (Enqueue c l d st) as [[err|why] st1]; [apply IH|done].
Qed.

Lemma hcalls_hbind c p (k : option error -> hprog) st :
  hcalls c (hbind p k) st =
  hcalls c p st ++
  match hrun c p st with
  | (Return err, st1) => hcalls c (k err) st1
  | (Abort _, _) => []
  end.
Proof.
  revert st. induction p as [err|l d k' IH|why]; intros st; simpl; try done.
  f_equal. destruct (Enqueue c l d st) as [[err|why] st1]; [apply IH|done].
Qed.

Lemma hrun_enqueue_return c link (depth : Z) st :
  hrun c (HEnqueue link depth HReturn) st = Enqueue c link depth st.
Proof. simpl. by destruct (Enqueue c link depth st) as [[err|why] st1]. Qed.

(** C5.  [FollowRedirects(H)] on an invocation in which [H] returns
    [herr] and leaves the state [st1].  It invokes [H] first: its
    [Enqueue] calls begin with those of [H].  If [herr] is an error, it
    returns it.  Otherwise, if the fetch errored, it returns nil.
    Otherwise, when the status is in [300, 400) and the [Location]
    header is not empty: if [Location] resolves against the request URL
    to [loc], it makes one more [Enqueue] call, with [loc], tag Primary
    and Go's [depth+1], and returns what that call returns; if
    [Location] does not resolve, it returns nil and calls nothing.  In
    the remaining case it returns nil and calls nothing. *)
Theorem FollowRedirects_spec c (wrap : Handler) (u : string) (depth : Z)
    (resp : option http.Response) (err herr : option error) st st1 :
  hrun c (wrap u depth resp err) st = (Return herr, st1) ->
  let p := FollowRedirects wrap u depth resp err in
  let inner := hcalls c (wrap u depth resp err) st in
  (forall e, herr = Some e ->
     hrun c p st = (Return (Some e), st1) /\ hcalls c p st = inner) /\
  (forall e, herr = None -> err = Some e ->
     hrun c p st = (Return None, st1) /\ hcalls c p st = inner) /\
  (forall r, herr = None -> err = None -> resp = Some r ->
     let location := http.Header_Get (http.Header_ r) "Location" in
     let base := http.Request_URL (http.Response_Request r) in
     (300 <= http.StatusCode r < 400 -> location <> "" ->
      (forall loc, url.URL_Parse base location = inr loc ->
         let target := {| link_URL := loc; Tag := TagPrimary |} in
         hrun c p st = Enqueue c target (int_add depth 1) st1 /\
         hcalls c p st = inner ++ [(target, int_add depth 1)]) /\
      (forall uerr, url.URL_Parse base location = inl uerr ->
         hrun c p st = (Return None, st1) /\ hcalls c p st = inner)) /\
     (~ (300 <= http.StatusCode r < 400 /\ location <> "") ->
      hrun c p st = (Return None, st1) /\ hcalls c p st = inner)).
Proof.
  intros Hrun p inner. subst p inner. unfold FollowRedirects.
  rewrite hrun_hbind, hcalls_hbind, Hrun.
  split; [|split].
  - intros e ->. simpl. by rewrite app_nil_r.
  - intros e -> ->. simpl. by rewrite app_nil_r.
  - intros r -> -> ->. cbv zeta.
    set (location := http.Header_Get (http.Header_ r) "Location").
    set (base := http.Request_URL (http.Response_Request r)).
    split.
    + intros Hs Hloc.
      assert (Hc : (300 <=? http.StatusCode r) && (http.StatusCode r <? 400)
                   && negb (String.eqb location "") = true).
      { apply andb_true_iff. split; [apply andb_true_iff; split; lia|].
        apply negb_true_iff. by apply String.eqb_neq. }
      rewrite Hc. split.
      * intros loc Hp. rewrite Hp. split; [apply hrun_enqueue_return|].
        simpl. by destruct (Enqueue c _ (int_add depth 1) st1) as [[?|?] ?].
      * intros uerr Hp. rewrite Hp. simpl. by rewrite app_nil_r.
    + intros Hn.
      assert (Hc : (300 <=? http.StatusCode r) && (http.StatusCode r <? 400)
                   && negb (String.eqb location "") = false).
      { destruct ((300 <=? http.StatusCode r) && (http.StatusCode r <? 400)
                  && negb (String.eqb location "")) eqn:Hc; [|done].
        exfalso. apply Hn.
        apply andb_true_iff in Hc as [Hc Hl].
        apply andb_true_iff in Hc as [Hc1 Hc2].
        split; [lia|]. apply negb_true_iff in Hl. by apply String.eqb_neq. }
      rewrite Hc. simpl. by rewrite app_nil_r.
Qed.

(** *** Handling a dequeued item *)

(** *** Handling a dequeued item *)

Lemma putInfo_ok (key : bytes) (info : URLInfo) st (b : bytes) :
  gob.Encode info = inr b ->
  putInfo key info st =
  (None, Build_State (<[key := b]> (db st)) (queue st)
           (calls st ++ [EvPutObj key info None])).
Proof.
  intros Hb. unfold putInfo, PutObj, leveldb.Put. by rewrite Hb.
Qed.

(** C2.  [handleURL] on an item for which the fetcher answers (with a
    response whenever its error is nil) and the handler returns [herr],
    leaving the state [st1].  If [herr] is nil, the updated record is
    written under the key of the item's URL, on [st1], and the result of
    that write goes to the queue: nil, with the record stored, whenever
    the record encodes.  If [herr] is [ErrRetryRequest], that error goes
    to the queue and the state stays [st1]: nothing is written.  On any
    other error the process is aborted. *)
Theorem handleURL_classifies c (now : Z) (item : queueItem) st
    (resp : option http.Response) (ferr herr : option error) st1 :
  fetcher c (item_URL item) = (resp, ferr) ->
  (ferr = None -> is_Some resp) ->
  hrun c (handler c (item_URL item) (Depth item) resp ferr) st = (Return herr, st1) ->
  let key := urlKey (item_URL item) in
  let info := updatedInfo c now item st in
  match herr with
  | None =>
      handleURL c now item st =
        (let '(perr, st2) := putInfo key info st1 in (Return perr, st2)) /\
      forall b, gob.Encode info = inr b ->
        handleURL c now item st =
          (Return None,
           Build_State (<[key := b]> (db st1)) (queue st1)
             (calls st1 ++ [EvPutObj key info None]))
  | Some ErrRetryRequest =>
      handleURL c now item st = (Return (Some ErrRetryRequest), st1)
  | Some _ =>
      exists why, handleURL c now item st = (Abort why, st1)
  end.
Proof.
  intros Hf Hresp Hrun key info.
  assert (Hnil : herr = None ->
    handleURL c now item st =
      (let '(perr, st2) := putInfo key info st1 in (Return perr, st2))).
  { intros ->. subst key info. unfold handleURL, updatedInfo.
    destruct (GetObj (db st) (urlKey (item_URL item)) URLInfo_zero) as [gerr old].
    rewrite Hf. simpl.
    destruct ferr as [fe|]; [|destruct (Hresp eq_refl) as [r ->]];
      try destruct resp as [r|]; by rewrite Hrun. }
  destruct herr as [e|].
  - unfold handleURL.
    destruct (GetObj (db st) (urlKey (item_URL item)) URLInfo_zero) as [gerr old].
    rewrite Hf.
    destruct ferr as [fe|]; [|destruct (Hresp eq_refl) as [r ->]];
      try destruct resp as [r|]; rewrite Hrun; destruct e; eauto.
  - split; [by apply Hnil|].
    intros b Hb. rewrite Hnil by done. by rewrite (putInfo_ok _ _ _ b).
Qed.

(** *** The [Error] field *)

Section Error_field.
Hypothesis gob_contract : gob.round_trips URLInfo_zero.

Lemma cleanStore_insert (m : leveldb.DB) (k b : bytes) (i : URLInfo) :
  cleanStore m -> gob.Encode i = inr b -> Error i = "" ->
  cleanStore (<[k := b]> m).
Proof.
  intros Hm Hb Hi k' b' Hk'.
  destruct (decide (k = k')) as [->|Hne].
  - rewrite lookup_insert_eq in Hk'. injection Hk' as <-. eauto.
  - rewrite lookup_insert_ne in Hk' by done. eauto.
Qed.

Lemma cleanPuts_snoc (evs : list Event) (ev : Event) :
  cleanPuts evs ->
  (forall k i e, ev = EvPutObj k i e -> Error i = "") ->
  cleanPuts (evs ++ [ev]).
Proof.
  intros Hevs Hev k i e Hin.
  apply elem_of_app in Hin as [Hin|Hin]; [eauto|].
  apply list_elem_of_singleton in Hin. eauto.
Qed.

(** Reading a clean store into a zero record: the record read has an
    empty [Error], and the read fails only on a missing key. *)
Lemma GetObj_clean (m : leveldb.DB) (k : bytes) :
  cleanStore m ->
  Error (snd (GetObj m k URLInfo_zero)) = "" /\
  (fst (GetObj m k URLInfo_zero) <> None ->
   m !! k = None /\ snd (GetObj m k URLInfo_zero) = URLInfo_zero).
Proof.
  intros Hm. unfold GetObj, leveldb.Get.
  destruct (m !! k) as [b|] eqn:Hk; [|done].
  destruct (Hm k b Hk) as (i & Hb & Hi).
  rewrite (gob_contract i b Hb). simpl. split; [done|]. by intros [].
Qed.

Lemma putInfo_clean (key : bytes) (info : URLInfo) st :
  clean st -> Error info = "" -> clean (snd (putInfo key info st)).
Proof.
  intros [Hs Hp] Hi. unfold putInfo, PutObj, leveldb.Put.
  destruct (gob.Encode info) as [e|b] eqn:Hb; simpl; split; simpl.
  - done.
  - apply cleanPuts_snoc; [done|]. by intros ? ? ? [= _ <- _].
  - by apply (cleanStore_insert _ _ _ info).
  - apply cleanPuts_snoc; [done|]. by intros ? ? ? [= _ <- _].
Qed.

Lemma addNewURLToQueue_clean (uri : url.URL) (depth : Z) st :
  clean st -> clean (snd (addNewURLToQueue uri depth st)).
Proof.
  intros [Hs Hp]. unfold addNewURLToQueue.
  destruct (json.Marshal _) as [e|data]; [done|].
  destruct (jq.Add _ _ _) as [err q']. simpl. split; [done|]. simpl.
  apply cleanPuts_snoc; [done|]. discriminate.
Qed.

Lemma Enqueue_clean c link (depth : Z) st :
  clean st -> clean (snd (Enqueue c link depth st)).
Proof.
  intros Hst. unfold Enqueue.
  destruct (normalizeURL (link_URL link)) as [u|why]; [|done]. simpl.
  destruct (scope c _ depth); [|done]. simpl.
  destruct (GetObj_clean (db st) (urlKey (url.String u)) (proj1 Hst))
    as [Herr _].
  destruct (GetObj (db st) (urlKey (url.String u)) URLInfo_zero)
    as [[gerr|] info]; [|done].
  pose proof (addNewURLToQueue_clean u depth st Hst) as Hadd.
  destruct (addNewURLToQueue u depth st) as [[e|] st1]; [done|].
  pose proof (putInfo_clean (urlKey (url.String u)) info st1 Hadd Herr) as Hput.
  by destruct (putInfo _ info st1) as [perr st2].
Qed.

Lemma hrun_clean c p st : clean st -> clean (snd (hrun c p st)).
Proof.
  revert st. induction p as [err|l d k IH|why]; intros st Hst; simpl; try done.
  pose proof (Enqueue_clean c l d st Hst) as He.
  destruct (Enqueue c l d st) as [[err|why] st1]; [by apply IH|done].
Qed.

Lemma handleURL_clean c (now : Z) (item : queueItem) st :
  clean st -> clean (snd (handleURL c now item st)).
Proof.
  intros Hst. unfold handleURL.
  destruct (GetObj_clean (db st) (urlKey (item_URL item)) (proj1 Hst))
    as [Herr _].
  destruct (GetObj (db st) (urlKey (item_URL item)) URLInfo_zero)
    as [gerr old]. simpl in Herr.
  destruct (fetcher c (item_URL item)) as [resp ferr].
  set (h := handler c (item_URL item) (Depth item)).
  assert (Hgo : forall info, Error info = "" ->
    clean (snd match hrun c (h resp ferr) st with
               | (Abort why, st1) => (Abort why, st1)
               | (Return None, st1) =>
                   let '(err, st2) := putInfo (urlKey (item_URL item)) info st1 in
                   (Return err, st2)
               | (Return (Some ErrRetryRequest), st1) =>
                   (Return (Some ErrRetryRequest), st1)
               | (Return (Some _), st1) =>
                   (@Abort (option error) "fatal error in handling", st1)
               end)).
  { intros info Hi. pose proof (hrun_clean c (h resp ferr) st Hst) as Hh.
    destruct (hrun c (h resp ferr) st) as [[[e|]|why] st1]; simpl in *.
    - by destruct e.
    - pose proof (putInfo_clean (urlKey (item_URL item)) info st1 Hh Hi).
      by destruct (putInfo _ info st1).
    - done. }
  destruct resp as [r|], ferr as [fe|]; try done; by apply Hgo.
Qed.

Lemma handleJob_clean c (now : Z) (job : jq.Job) st :
  clean st -> clean (snd (handleJob c now job st)).
Proof.
  intros Hst. unfold handleJob.
  destruct (json.Unmarshal _ _) as [[e|] item]; [done|].
  by apply handleURL_clean.
Qed.

Lemma run_clean c (ops : list op) st : clean st -> clean (run c ops st).
Proof.
  revert st. induction ops as [|o ops IH]; intros st Hst; [done|].
  apply IH. destruct o; [by apply Enqueue_clean|by apply handleJob_clean].
Qed.

Lemma fresh_clean (q : Q) : clean (Build_State ∅ q []).
Proof.
  split.
  - intros k b Hk. simpl in Hk. by rewrite lookup_empty in Hk.
  - intros k i e Hin. simpl in Hin. by apply elem_of_nil in Hin.
Qed.
End Error_field.

(** C10.  For a codec that meets the gob contract, whatever the crawler
    (its scope, its fetcher, its handler) and whatever [Enqueue] calls
    and jobs are run on a new store: every record that was handed to
    [PutObj], by [Enqueue] or by [handleURL], after a fetch that
    succeeded or one that failed, has an empty [Error]; and so has every
    record that can be read back from the store. *)
Theorem Error_never_assigned c (ops : list op) (q : Q) :
  gob.round_trips URLInfo_zero ->
  let st' := run c ops (Build_State ∅ q []) in
  (forall k i e, EvPutObj k i e ∈ calls st' -> Error i = "") /\
  (forall k b, db st' !! k = Some b ->
     exists i, GetObj (db st') k URLInfo_zero = (None, i) /\ Error i = "").
Proof.
  intros Hrt st'.
  destruct (run_clean Hrt c ops _ (fresh_clean q)) as [Hs Hp].
  split; [exact Hp|].
  intros k b Hk. destruct (Hs k b Hk) as (i & Hb & Hi).
  exists i. split; [|done].
  rewrite (GetObj_present _ k b) by done. by apply Hrt.
Qed.

(** *** Dedupe *)

Section Dedupe.
Hypothesis gob_contract : gob.round_trips URLInfo_zero.
Variable c : Crawler.
Variable s : string.

Lemma canonical_Some link :
  canonical link = Some s ->
  exists u, normalizeURL (link_URL link) = Return u /\ url.String u = s.
Proof.
  unfold canonical. destruct (normalizeURL (link_URL link)) as [u|why]; [|done].
  intros [= <-]. eauto.
Qed.

Lemma Enqueue_known link (depth : Z) st :
  canonical link = Some s -> known s (db st) ->
  Enqueue c link depth st = (Return None, st).
Proof.
  intros (u & Hn & <-)%canonical_Some (i & b & Hk & Hb).
  unfold Enqueue. rewrite Hn. simpl. destruct (scope c _ depth); [|done]. simpl.
  rewrite (GetObj_present _ _ b) by done.
  by rewrite (gob_contract i b Hb).
Qed.

Lemma Enqueue_skip link (depth : Z) st :
  canonical link = Some s -> inScope c link depth = false ->
  Enqueue c link depth st = (Return None, st).
Proof.
  intros (u & Hn & <-)%canonical_Some Hs. unfold inScope in Hs.
  rewrite Hn in Hs. unfold Enqueue. rewrite Hn. simpl. by rewrite Hs.
Qed.

Lemma Enqueue_new link (depth : Z) st st1 :
  canonical link = Some s -> inScope c link depth = true ->
  db st !! urlKey s = None ->
  Enqueue c link depth st = (Return None, st1) ->
  known s (db st1) /\
  countAdds s (calls st1) = (countAdds s (calls st) + 1)%nat /\
  countPuts (urlKey s) (calls st1) = (countPuts (urlKey s) (calls st) + 1)%nat.
Proof.
  intros (u & Hn & <-)%canonical_Some Hs Hk. unfold inScope in Hs.
  rewrite Hn in Hs. unfold Enqueue. rewrite Hn. simpl. rewrite Hs. simpl.
  rewrite GetObj_missing by done.
  unfold addNewURLToQueue.
  destruct (json.Marshal _) as [e|data]; [done|].
  destruct (jq.Add (queue st) (url.Host u) data) as [[e|] q1]; [done|].
  unfold putInfo, PutObj, leveldb.Put. simpl.
  destruct (gob.Encode URLInfo_zero) as [e|b] eqn:Hb; [done|].
  intros [= <-]. simpl. split; [|split].
  - exists URLInfo_zero, b. by rewrite lookup_insert_eq.
  - rewrite !countAdds_snoc. simpl. rewrite String.eqb_refl. lia.
  - rewrite !countPuts_snoc. simpl. rewrite String.eqb_refl. lia.
Qed.

Lemma Enqueue_other link (depth : Z) st :
  canonical link <> Some s ->
  let st1 := snd (Enqueue c link depth st) in
  db st1 !! urlKey s = db st !! urlKey s /\
  countAdds s (calls st1) = countAdds s (calls st) /\
  countPuts (urlKey s) (calls st1) = countPuts (urlKey s) (calls st).
Proof.
  intros Hne. unfold canonical in Hne. unfold Enqueue.
  destruct (normalizeURL (link_URL link)) as [u|why]; [|done]. simpl.
  assert (Hu : url.String u <> s) by congruence.
  assert (Hkey : urlKey (url.String u) <> urlKey s).
  { intros Heq. by apply urlKey_inj in Heq. }
  destruct (scope c _ depth); [|done]. simpl.
  destruct (GetObj _ _ _) as [[gerr|] info]; [|done].
  unfold addNewURLToQueue.
  destruct (json.Marshal _) as [e|data]; [done|].
  destruct (jq.Add (queue st) (url.Host u) data) as [[e|] q1]; simpl.
  - split; [done|]. rewrite countAdds_snoc, countPuts_snoc. simpl.
    apply String.eqb_neq in Hu. rewrite Hu. lia.
  - unfold putInfo. simpl.
    pose proof (PutObj_other (db st) _ _ info Hkey) as Hput.
    destruct (PutObj (db st) (urlKey (url.String u)) info) as [perr db'].
    simpl in *. split; [done|].
    rewrite !countAdds_snoc, !countPuts_snoc. cbn [isAddFor isPutAt item_URL].
    apply String.eqb_neq in Hu. apply String.eqb_neq in Hkey.
    rewrite Hu, Hkey. lia.
Qed.

Lemma known_lookup (m m' : leveldb.DB) :
  m' !! urlKey s = m !! urlKey s -> known s m -> known s m'.
Proof. intros Heq (i & b & Hk & Hb). exists i, b. by rewrite Heq. Qed.

(** Once the URL is known, no run changes that or adds to its calls. *)
Lemma enqueueAll_known (reqs : list (Outlink * Z)) st :
  known s (db st) ->
  let st' := snd (enqueueAll c reqs st) in
  known s (db st') /\
  countAdds s (calls st') = countAdds s (calls st) /\
  countPuts (urlKey s) (calls st') = countPuts (urlKey s) (calls st).
Proof.
  revert st. induction reqs as [|[link depth] reqs IH]; intros st Hk; [done|].
  simpl.
  destruct (decide (canonical link = Some s)) as [Hc|Hc].
  - rewrite (Enqueue_known link depth st Hc Hk).
    specialize (IH st Hk). by destruct (enqueueAll c reqs st).
  - destruct (Enqueue_other link depth st Hc) as (Hdb & Ha & Hp).
    destruct (Enqueue c link depth st) as [[err|why] st1]; simpl in *.
    + specialize (IH st1 (known_lookup _ _ Hdb Hk)).
      destruct (enqueueAll c reqs st1) as [rs st2]. simpl in *.
      destruct IH as (? & ? & ?). split; [done|]. split; congruence.
    + split; [by apply (known_lookup (db st))|done].
Qed.

Lemma occursInScope_cons link (depth : Z) (reqs : list (Outlink * Z)) :
  occursInScope c s ((link, depth) :: reqs) <->
  (canonical link = Some s /\ inScope c link depth = true) \/
  occursInScope c s reqs.
Proof.
  unfold occursInScope. split.
  - intros (l & d & Hin & Hc & Hs). apply elem_of_cons in Hin as [[= -> ->]|Hin].
    + by left.
    + right. eauto.
  - intros [[Hc Hs]|(l & d & Hin & Hc & Hs)].
    + exists link, depth. split; [left|done].
    + exists l, d. split; [by right|done].
Qed.

(** Until the URL is known, a run in which every call returns nil makes
    it known with one [Add] and one write if it has an in-scope request
    for it, and leaves it unknown otherwise. *)
Lemma enqueueAll_unknown (reqs : list (Outlink * Z)) st :
  db st !! urlKey s = None ->
  allNil reqs (fst (enqueueAll c reqs st)) ->
  let st' := snd (enqueueAll c reqs st) in
  (occursInScope c s reqs ->
   known s (db st') /\
   countAdds s (calls st') = (countAdds s (calls st) + 1)%nat /\
   countPuts (urlKey s) (calls st') = (countPuts (urlKey s) (calls st) + 1)%nat) /\
  (~ occursInScope c s reqs ->
   db st' !! urlKey s = None /\
   countAdds s (calls st') = countAdds s (calls st) /\
   countPuts (urlKey s) (calls st') = countPuts (urlKey s) (calls st)).
Proof.
  revert st. induction reqs as [|[link depth] reqs IH]; intros st Hk Hall.
  { simpl. split; [|done]. intros (l & d & Hin & _). by apply elem_of_nil in Hin. }
  simpl in *. unfold allNil in *.
  destruct (Enqueue c link depth st) as [[err|why] st1] eqn:HE; [|done].
  destruct (enqueueAll c reqs st1) as [rs st2] eqn:HA. simpl in *.
  injection Hall as -> Hrs.
  destruct (decide (canonical link = Some s)) as [Hc|Hc].
  - destruct (inScope c link depth) eqn:Hs.
    + destruct (Enqueue_new link depth st st1 Hc Hs Hk HE) as (Hk1 & Ha & Hp).
      pose proof (enqueueAll_known reqs st1 Hk1) as Hrest.
      rewrite HA in Hrest. simpl in Hrest. destruct Hrest as (? & ? & ?).
      split.
      * intros _. split; [done|]. split; congruence.
      * intros Hn. exfalso. apply Hn. apply occursInScope_cons. by left.
    + rewrite (Enqueue_skip link depth st Hc Hs) in HE. injection HE as <-.
      specialize (IH st Hk). rewrite HA in IH. simpl in IH.
      destruct (IH Hrs) as [IH1 IH2]. split.
      * intros [[_ Hs']|Ho]%occursInScope_cons; [congruence|by apply IH1].
      * intros Hn. apply IH2. intros Ho. apply Hn.
        apply occursInScope_cons. by right.
  - pose proof (Enqueue_other link depth st Hc) as Hoth.
    rewrite HE in Hoth. simpl in Hoth. destruct Hoth as (Hdb & Ha & Hp).
    assert (Hk1 : db st1 !! urlKey s = None) by congruence.
    specialize (IH st1 Hk1). rewrite HA in IH. simpl in IH.
    destruct (IH Hrs) as [IH1 IH2]. split.
    + intros [[Hc' _]|Ho]%occursInScope_cons; [done|].
      destruct (IH1 Ho) as (? & ? & ?). split; [done|]. split; congruence.
    + intros Hn.
      destruct IH2 as (? & ? & ?).
      { intros Ho. apply Hn. apply occursInScope_cons. by right. }
      split; [done|]. split; congruence.
Qed.
End Dedupe.

(** C1, as amended.  For a codec that meets the gob contract and a
    canonical URL [s].  A run of [Enqueue] calls, one after the other,
    that starts where no record of [s] is stored and in which every call
    returns nil: if some request for [s] is in scope, one queue [Add]
    for [s] and one write of its record are made, and the record is in
    the store at the end; if none is, no [Add] and no write are made and
    no record is stored.  And once a well-formed record of [s] is in the
    store, [Enqueue] of a link with canonical URL [s] returns nil and
    leaves the state as it was: no [Add], no write. *)
Theorem Enqueue_dedupe c (s : string) :
  gob.round_trips URLInfo_zero ->
  (forall (reqs : list (Outlink * Z)) st,
     db st !! urlKey s = None ->
     allNil reqs (fst (enqueueAll c reqs st)) ->
     let st' := snd (enqueueAll c reqs st) in
     (occursInScope c s reqs ->
      countAdds s (calls st') = (countAdds s (calls st) + 1)%nat /\
      countPuts (urlKey s) (calls st') =
        (countPuts (urlKey s) (calls st) + 1)%nat /\
      known s (db st')) /\
     (~ occursInScope c s reqs ->
      countAdds s (calls st') = countAdds s (calls st) /\
      countPuts (urlKey s) (calls st') = countPuts (urlKey s) (calls st) /\
      db st' !! urlKey s = None)) /\
  (forall link (depth : Z) st,
     canonical link = Some s -> known s (db st) ->
     Enqueue c link depth st = (Return None, st)).
Proof.
  intros Hrt. split.
  - intros reqs st Hk Hall st'.
    destruct (enqueueAll_unknown Hrt c s reqs st Hk Hall) as [Hin Hout].
    split; intros Ho;
      [destruct (Hin Ho) as (? & ? & ?)|destruct (Hout Ho) as (? & ? & ?)];
      by repeat split.
  - intros link depth st. by apply Enqueue_known.
Qed.

End Engine_facts.

(** * More properties of the engine *)

(** ** Compositions of middlewares *)

Section Middleware_compositions.
Context `{url.Lib}.

(** X1.  [FilterErrors(H)] on an invocation in which a response
    accompanies a nil fetch error: it returns nil whatever [H] is (so
    [H] is not invoked) exactly when the fetch errored or the status is
    at least 400; in every other case it is [H] invoked with a nil fetch
    error. *)
Theorem FilterErrors_drops (u : string) (depth : Z)
    (resp : option http.Response) (err : option error) :
  (err = None -> is_Some resp) ->
  let drop :=
    err <> None \/ exists r, resp = Some r /\ 400 <= http.StatusCode r in
  (drop <-> forall wrap : Handler,
              FilterErrors wrap u depth resp err = HReturn None) /\
  (~ drop -> forall wrap : Handler,
               FilterErrors wrap u depth resp err = wrap u depth resp None).
Proof.
  intros Hresp drop. unfold FilterErrors.
  destruct err as [e|].
  - split; [|intros Hn; exfalso; apply Hn; by left].
    split; [done|]. intros _. by left.
  - destruct (Hresp eq_refl) as [r ->].
    destruct (400 <=? http.StatusCode r) eqn:Hc.
    + assert (Hd : drop) by (right; exists r; split; [done|lia]).
      split; [done|]. intros Hn. by destruct Hn.
    + assert (Hn : ~ drop).
      { intros [Hne|(r' & [= <-] & Hs)]; [done|lia]. }
      split; [|done]. split; [done|].
      intros Hall.
      specialize (Hall (fun _ _ _ _ => HReturn (Some ErrRetryRequest))).
      discriminate.
Qed.

(** X2.  The order of the wrappers matters: inside [FilterErrors] the
    retry policy never fires.  On every invocation in which a response
    accompanies a nil fetch error, [FilterErrors(HandleRetries(H))] is
    [FilterErrors(H)]: fetch errors, 429 and 5xx answers end in nil
    (the job is acknowledged), not in [ErrRetryRequest]. *)
Theorem FilterErrors_HandleRetries (wrap : Handler) (u : string) (depth : Z)
    (resp : option http.Response) (err : option error) :
  (err = None -> is_Some resp) ->
  FilterErrors (HandleRetries wrap) u depth resp err =
  FilterErrors wrap u depth resp err.
Proof.
  intros Hresp. unfold FilterErrors.
  destruct err as [e|]; [done|]. destruct (Hresp eq_refl) as [r ->].
  destruct (400 <=? http.StatusCode r) eqn:Hc; [done|].
  unfold HandleRetries, http.StatusTooManyRequests.
  assert (Hno : (http.StatusCode r =? 429) || (500 <=? http.StatusCode r) = false).
  { apply orb_false_iff. split; lia. }
  by rewrite Hno.
Qed.

(** X3.  The three wrappers composed, retry policy outermost:
    [HandleRetries(FollowRedirects(FilterErrors(save)))] on a response
    that came without a fetch error.  With status 429 or at least 500
    it returns [ErrRetryRequest]; with another status from 400 on it
    returns nil; in both cases [save] is not invoked and nothing is
    enqueued, whatever the headers.  Below 400 it is
    [FollowRedirects(save)]: [save] sees the response, and a redirect is
    followed after it. *)
Theorem retry_redirect_filter_by_status (save : Handler) (u : string)
    (depth : Z) (r : http.Response) :
  let s := http.StatusCode r in
  let stack := HandleRetries (FollowRedirects (FilterErrors save)) in
  (s = 429 \/ 500 <= s ->
   stack u depth (Some r) None = HReturn (Some ErrRetryRequest)) /\
  (400 <= s < 500 -> s <> 429 ->
   stack u depth (Some r) None = HReturn None) /\
  (s < 400 ->
   stack u depth (Some r) None = FollowRedirects save u depth (Some r) None).
Proof.
  intros s stack. subst s stack. unfold HandleRetries, http.StatusTooManyRequests.
  destruct ((http.StatusCode r =? 429) || (500 <=? http.StatusCode r)) eqn:Hc.
  - apply orb_true_iff in Hc.
    split; [done|]. split; intros; exfalso; lia.
  - apply orb_false_iff in Hc as [Hc1 Hc2].
    split; [intros; exfalso; lia|].
    unfold FollowRedirects, FilterErrors. split.
    + intros Hs Hne.
      assert (H400 : (400 <=? http.StatusCode r) = true) by lia.
      rewrite H400. simpl.
      assert (Hlt : (http.StatusCode r <? 400) = false) by lia.
      by rewrite Hlt, andb_false_r.
    + intros Hs.
      assert (H400 : (400 <=? http.StatusCode r) = false) by lia.
      by rewrite H400.
Qed.
End Middleware_compositions.

(** ** Jobs, writes and reads *)

Section Engine_more.
Context {Q : Type} `{jq.Queue Q} `{jqw.Consumer Q}.
Context `{gob.Codec URLInfo} `{json.Codec queueItem}.
Context `{url.Lib} `{purell.Lib}.
Implicit Types (c : Crawler) (st : State Q) (link : Outlink) (p : hprog).

(** X4.  A retry leaves no trace.  When the handler of the crawler is
    [HandleRetries(H)] and the fetch errored, or answered 429 or a status
    from 500 on, [handleURL] returns [ErrRetryRequest] and the state is
    what it was: no record is written, nothing is enqueued, so the job
    is handled later as if for the first time. *)
Theorem handleURL_retry_untouched c (wrap : Handler) (now : Z)
    (item : queueItem) st (resp : option http.Response) (ferr : option error) :
  handler c = HandleRetries wrap ->
  fetcher c (item_URL item) = (resp, ferr) ->
  (ferr = None -> is_Some resp) ->
  (ferr <> None \/
   exists r, resp = Some r /\ (http.StatusCode r = 429 \/ 500 <= http.StatusCode r)) ->
  handleURL c now item st = (Return (Some ErrRetryRequest), st).
Proof.
  intros Hh Hf Hresp Hretry. unfold handleURL.
  destruct (GetObj _ _ _) as [gerr old]. rewrite Hf, Hh.
  unfold HandleRetries, http.StatusTooManyRequests.
  destruct ferr as [fe|].
  - by destruct resp.
  - destruct (Hresp eq_refl) as [r ->].
    destruct Hretry as [Hne|(r' & [= <-] & Hs)]; [done|].
    assert (Hc : (http.StatusCode r =? 429) || (500 <=? http.StatusCode r) = true).
    { apply orb_true_iff. destruct Hs; [left|right]; lia. }
    by rewrite Hc.
Qed.

(** X5.  An error of [Enqueue] on a redirect is fatal.  When the handler
    of the crawler is [FollowRedirects(H)], [H] returns nil on a
    redirect whose [Location] resolves, and the [Enqueue] of the target
    returns an error other than [ErrRetryRequest] (the queue turned the
    [Add] down, say), [handleURL] aborts the process, in the state that
    [Enqueue] left: the record of the redirecting URL is not written. *)
Theorem handleURL_redirect_error_fatal c (wrap : Handler) (now : Z)
    (item : queueItem) st st1 st2 (r : http.Response) (loc : url.URL)
    (e : error) :
  handler c = FollowRedirects wrap ->
  fetcher c (item_URL item) = (Some r, None) ->
  hrun c (wrap (item_URL item) (Depth item) (Some r) None) st = (Return None, st1) ->
  300 <= http.StatusCode r < 400 ->
  http.Header_Get (http.Header_ r) "Location" <> "" ->
  url.URL_Parse (http.Request_URL (http.Response_Request r))
                (http.Header_Get (http.Header_ r) "Location") = inr loc ->
  Enqueue c {| link_URL := loc; Tag := TagPrimary |} (int_add (Depth item) 1) st1
    = (Return (Some e), st2) ->
  e <> ErrRetryRequest ->
  exists why, handleURL c now item st = (Abort why, st2).
Proof.
  intros Hh Hf Hrun Hs Hloc Hp HE Hne. unfold handleURL.
  destruct (GetObj _ _ _) as [gerr old]. rewrite Hf, Hh.
  unfold FollowRedirects. rewrite hrun_hbind, Hrun.
  assert (Hc : (300 <=? http.StatusCode r) && (http.StatusCode r <? 400)
               && negb (String.eqb (http.Header_Get (http.Header_ r) "Location") "")
               = true).
  { apply andb_true_iff. split; [apply andb_true_iff; split; lia|].
    apply negb_true_iff. by apply String.eqb_neq. }
  rewrite Hc, Hp. simpl. rewrite HE. simpl.
  destruct e; [done|eauto..].
Qed.

(** X6.  For a codec that meets the gob contract: when [handleURL]
    returns nil, the record of the item's URL reads back from the store
    as the updated record: the URL of the item, the time of the call,
    the status of the response if the fetch did not fail (the stored
    status otherwise), and the stored [Error]. *)
Theorem handleURL_read_back c (now : Z) (item : queueItem) st st' :
  gob.round_trips URLInfo_zero ->
  handleURL c now item st = (Return None, st') ->
  GetObj (db st') (urlKey (item_URL item)) URLInfo_zero =
    (None, updatedInfo c now item st).
Proof.
  intros Hrt. unfold handleURL, updatedInfo.
  destruct (GetObj (db st) _ _) as [gerr old]. simpl.
  destruct (fetcher c (item_URL item)) as [resp ferr].
  set (h := handler c (item_URL item) (Depth item) resp ferr).
  assert (Hgo : forall info,
    match hrun c h st with
    | (Abort why, st1) => (Abort why, st1)
    | (Return None, st1) =>
        let '(err, st2) := putInfo (urlKey (item_URL item)) info st1 in
        (Return err, st2)
    | (Return (Some ErrRetryRequest), st1) =>
        (Return (Some ErrRetryRequest), st1)
    | (Return (Some _), st1) =>
        (@Abort (option error) "fatal error in handling", st1)
    end = (Return None, st') ->
    GetObj (db st') (urlKey (item_URL item)) URLInfo_zero = (None, info)).
  { intros info. destruct (hrun c h st) as [[[e|]|why] st1].
    - by destruct e.
    - unfold putInfo.
      destruct (PutObj (db st1) (urlKey (item_URL item)) info)
        as [perr db'] eqn:Hput.
      intros [= -> <-]. simpl.
      apply PutObj_ok in Hput as (b & Hb & ->).
      rewrite (GetObj_present _ _ b) by apply lookup_insert_eq.
      by apply Hrt.
    - done. }
  destruct resp as [r|], ferr as [fe|]; try done; apply Hgo.
Qed.

(** X7.  For a codec that meets the gob contract, an [Enqueue] that
    returned nil changes nothing when it is made again: it returns nil
    and the state stays as the first call left it. *)
Theorem Enqueue_twice c link (depth : Z) st st1 :
  gob.round_trips URLInfo_zero ->
  Enqueue c link depth st = (Return None, st1) ->
  Enqueue c link depth st1 = (Return None, st1).
Proof.
  intros Hrt HE.
  destruct (canonical link) as [s|] eqn:Hc.
  - destruct (inScope c link depth) eqn:Hs.
    + destruct (db st !! urlKey s) as [b|] eqn:Hk.
      * revert HE. apply canonical_Some in Hc as (u & Hn & <-).
        unfold inScope in Hs. rewrite Hn in Hs.
        unfold Enqueue at 1. rewrite Hn. simpl. rewrite Hs. simpl.
        rewrite (GetObj_present _ _ b) by done.
        destruct (gob.Decode b URLInfo_zero) as [[gerr|] info] eqn:Hd.
        -- unfold addNewURLToQueue, putInfo.
           destruct (json.Marshal _) as [e|data]; [done|].
           destruct (jq.Add _ _ _) as [[e|] q1]; [done|]. simpl.
           destruct (PutObj (db st) (urlKey (url.String u)) info)
             as [perr db'] eqn:Hput.
           intros [= -> <-].
           apply PutObj_ok in Hput as (b' & Hb' & ->).
           unfold Enqueue. rewrite Hn. simpl. rewrite Hs. simpl.
           rewrite (GetObj_present _ _ b') by apply lookup_insert_eq.
           by rewrite (Hrt info b' Hb').
        -- intros [= <-].
           unfold Enqueue. rewrite Hn. simpl. rewrite Hs. simpl.
           rewrite (GetObj_present _ _ b) by done. by rewrite Hd.
      * destruct (Enqueue_new c s link depth st st1 Hc Hs Hk HE) as (Hk1 & _).
        by apply (Enqueue_known Hrt c s).
    + rewrite (Enqueue_skip c s link depth st Hc Hs) in HE.
      injection HE as <-. by apply (Enqueue_skip c s).
  - unfold canonical in Hc. unfold Enqueue in HE.
    by destruct (normalizeURL (link_URL link)).
Qed.


(** *** A known URL stays known *)

Section Settled.
Hypothesis gob_contract : gob.round_trips URLInfo_zero.
Variable c : Crawler.
Variable s : string.
Variable n : nat.

Lemma Enqueue_settled link (depth : Z) st :
  settled s n st -> settled s n (snd (Enqueue c link depth st)).
Proof.
  intros [Hk Hn].
  destruct (decide (canonical link = Some s)) as [Hc|Hc].
  - by rewrite (Enqueue_known gob_contract c s link depth st Hc Hk).
  - destruct (Enqueue_other c s link depth st Hc) as (Hdb & Ha & _).
    split; [by apply (known_lookup s (db st))|congruence].
Qed.

Lemma hrun_settled p st : settled s n st -> settled s n (snd (hrun c p st)).
Proof.
  revert st. induction p as [err|l d k IH|why]; intros st Hst; simpl; try done.
  pose proof (Enqueue_settled l d st Hst) as He.
  destruct (Enqueue c l d st) as [[err|why] st1]; [by apply IH|done].
Qed.

Lemma putInfo_settled (key : bytes) (info : URLInfo) st :
  settled s n st -> settled s n (snd (putInfo key info st)).
Proof.
  intros [(i & b & Hk & Hb) Hn]. unfold putInfo, PutObj, leveldb.Put.
  destruct (gob.Encode info) as [e|b'] eqn:Hb'; simpl; split; simpl.
  - by exists i, b.
  - rewrite countAdds_snoc. simpl. lia.
  - destruct (decide (key = urlKey s)) as [->|Hne].
    + exists info, b'. by rewrite lookup_insert_eq.
    + exists i, b. by rewrite lookup_insert_ne.
  - rewrite countAdds_snoc. simpl. lia.
Qed.

Lemma handleURL_settled (now : Z) (item : queueItem) st :
  settled s n st -> settled s n (snd (handleURL c now item st)).
Proof.
  intros Hst. unfold handleURL.
  destruct (GetObj _ _ _) as [gerr old].
  destruct (fetcher c (item_URL item)) as [resp ferr].
  set (h := handler c (item_URL item) (Depth item) resp ferr).
  assert (Hgo : forall info,
    settled s n (snd match hrun c h st with
               | (Abort why, st1) => (Abort why, st1)
               | (Return None, st1) =>
                   let '(err, st2) := putInfo (urlKey (item_URL item)) info st1 in
                   (Return err, st2)
               | (Return (Some ErrRetryRequest), st1) =>
                   (Return (Some ErrRetryRequest), st1)
               | (Return (Some _), st1) =>
                   (@Abort (option error) "fatal error in handling", st1)
               end)).
  { intros info. pose proof (hrun_settled h st Hst) as Hh.
    destruct (hrun c h st) as [[[e|]|why] st1]; simpl in *.
    - by destruct e.
    - pose proof (putInfo_settled (urlKey (item_URL item)) info st1 Hh).
      by destruct (putInfo _ info st1).
    - done. }
  destruct resp as [r|], ferr as [fe|]; try done; by apply Hgo.
Qed.

Lemma handleJob_settled (now : Z) (job : jq.Job) st :
  settled s n st -> settled s n (snd (handleJob c now job st)).
Proof.
  intros Hst. unfold handleJob.
  destruct (json.Unmarshal _ _) as [[e|] item]; [done|].
  by apply handleURL_settled.
Qed.

Lemma run_settled (ops : list op) st :
  settled s n st -> settled s n (run c ops st).
Proof.
  revert st. induction ops as [|o ops IH]; intros st Hst; [done|].
  apply IH. destruct o; [by apply Enqueue_settled|by apply handleJob_settled].
Qed.
End Settled.

(** X9.  For a codec that meets the gob contract: once a well-formed
    record of the canonical URL [s] is in the store, whatever [Enqueue]
    calls and jobs follow (with the [Enqueue] calls that the handlers of
    those jobs make), the URL stays known and no further [Add] is made
    for it. *)
Theorem known_for_good c (s : string) (ops : list op) st :
  gob.round_trips URLInfo_zero ->
  known s (db st) ->
  known s (db (run c ops st)) /\
  countAdds s (calls (run c ops st)) = countAdds s (calls st).
Proof.
  intros Hrt Hk.
  by apply (run_settled Hrt c s (countAdds s (calls st)) ops st).
Qed.

(** *** Keys of the store, entries of the queue *)

Section Sound.
Variable c : Crawler.

Lemma keysOK_insert (m : leveldb.DB) (s0 b : string) :
  keysOK m -> keysOK (<[urlKey s0 := b]> m).
Proof.
  intros Hm k Hk. destruct (decide (urlKey s0 = k)) as [<-|Hne]; [eauto|].
  rewrite lookup_insert_ne in Hk by done. by apply Hm.
Qed.

Lemma addsOK_snoc (evs : list Event) (ev : Event) :
  addsOK c evs ->
  (forall item tag data err, ev = EvAdd item tag data err ->
     exists link u,
       normalizeURL (link_URL link) = Return u /\
       scope c {| link_URL := u; Tag := Tag link |} (Depth item) = true /\
       item_URL item = url.String u /\ tag = url.Host u /\
       json.Marshal item = inr data) ->
  addsOK c (evs ++ [ev]).
Proof.
  intros Hevs Hev item tag data err Hin.
  apply elem_of_app in Hin as [Hin|Hin]; [eauto|].
  apply list_elem_of_singleton in Hin. eauto.
Qed.

Lemma putInfo_sound (s0 : string) (info : URLInfo) st :
  sound c st -> sound c (snd (putInfo (urlKey s0) info st)).
Proof.
  intros [Hk Ha]. unfold putInfo, PutObj, leveldb.Put.
  destruct (gob.Encode info) as [e|b]; simpl; split; simpl;
    try done; try (by apply keysOK_insert);
    apply addsOK_snoc; try done; discriminate.
Qed.

Lemma Enqueue_sound link (depth : Z) st :
  sound c st -> sound c (snd (Enqueue c link depth st)).
Proof.
  intros Hst. unfold Enqueue.
  destruct (normalizeURL (link_URL link)) as [u|why] eqn:Hn; [|done]. simpl.
  destruct (scope c _ depth) eqn:Hs; [|done]. simpl.
  destruct (GetObj _ _ _) as [[gerr|] info]; [|done].
  unfold addNewURLToQueue.
  destruct (json.Marshal _) as [e|data] eqn:Hm; [done|].
  destruct (jq.Add _ _ _) as [err q1].
  assert (Hadd : sound c (Build_State (db st) q1
           (calls st ++ [EvAdd {| item_URL := url.String u; Depth := depth |}
                               (url.Host u) data err]))).
  { destruct Hst as [Hk Ha]. split; [done|]. simpl.
    apply addsOK_snoc; [done|].
    intros item tag data' err' [= <- <- <- <-].
    exists link, u. by repeat split. }
  destruct err as [e|]; [done|].
  pose proof (putInfo_sound (url.String u) info _ Hadd) as Hput.
  by destruct (putInfo _ info _).
Qed.

Lemma hrun_sound p st : sound c st -> sound c (snd (hrun c p st)).
Proof.
  revert st. induction p as [err|l d k IH|why]; intros st Hst; simpl; try done.
  pose proof (Enqueue_sound l d st Hst) as He.
  destruct (Enqueue c l d st) as [[err|why] st1]; [by apply IH|done].
Qed.

Lemma handleURL_sound (now : Z) (item : queueItem) st :
  sound c st -> sound c (snd (handleURL c now item st)).
Proof.
  intros Hst. unfold handleURL.
  destruct (GetObj _ _ _) as [gerr old].
  destruct (fetcher c (item_URL item)) as [resp ferr].
  set (h := handler c (item_URL item) (Depth item) resp ferr).
  assert (Hgo : forall info,
    sound c (snd match hrun c h st with
               | (Abort why, st1) => (Abort why, st1)
               | (Return None, st1) =>
                   let '(err, st2) := putInfo (urlKey (item_URL item)) info st1 in
                   (Return err, st2)
               | (Return (Some ErrRetryRequest), st1) =>
                   (Return (Some ErrRetryRequest), st1)
               | (Return (Some _), st1) =>
                   (@Abort (option error) "fatal error in handling", st1)
               end)).
  { intros info. pose proof (hrun_sound h st Hst) as Hh.
    destruct (hrun c h st) as [[[e|]|why] st1]; simpl in *.
    - by destruct e.
    - pose proof (putInfo_sound (item_URL item) info st1 Hh).
      by destruct (putInfo _ info st1).
    - done. }
  destruct resp as [r|], ferr as [fe|]; try done; by apply Hgo.
Qed.

Lemma handleJob_sound (now : Z) (job : jq.Job) st :
  sound c st -> sound c (snd (handleJob c now job st)).
Proof.
  intros Hst. unfold handleJob.
  destruct (json.Unmarshal _ _) as [[e|] item]; [done|].
  by apply handleURL_sound.
Qed.

Lemma run_sound (ops : list op) st : sound c st -> sound c (run c ops st).
Proof.
  revert st. induction ops as [|o ops IH]; intros st Hst; [done|].
  apply IH. destruct o; [by apply Enqueue_sound|by apply handleJob_sound].
Qed.

Lemma fresh_sound (q : Q) : sound c (Build_State ∅ q []).
Proof.
  split.
  - intros k [b Hk]. simpl in Hk. by rewrite lookup_empty in Hk.
  - intros item tag data err Hin. simpl in Hin. by apply elem_of_nil in Hin.
Qed.
End Sound.


(** X11.  Nothing out of scope reaches the queue: after any [Enqueue]
    calls and jobs, every [Add] that was made carries the marshalled
    item (canonical URL, depth) of a link that normalization returned
    and that the scope admitted at that depth, under the host of the
    normalized URL as tag. *)
Theorem queue_adds_are_in_scope c (ops : list op) (q : Q)
    (item : queueItem) (tag data : bytes) (err : option error) :
  EvAdd item tag data err ∈ calls (run c ops (Build_State ∅ q [])) ->
  exists link u,
    normalizeURL (link_URL link) = Return u /\
    scope c {| link_URL := u; Tag := Tag link |} (Depth item) = true /\
    item_URL item = url.String u /\
    tag = url.Host u /\
    json.Marshal item = inr data.
Proof. exact (proj2 (run_sound c ops _ (fresh_sound c q)) item tag data err). Qed.

(** X12.  What [Enqueue] puts into the queue is what [handleJob] takes
    out.  For a JSON encoding that meets its contract: a job whose
    payload is the data of an [Add] made in any run is handled as the
    item of that [Add], in every state. *)
Theorem handleJob_of_added_payload c (ops : list op) (q : Q)
    (item : queueItem) (tag data : bytes) (err : option error)
    (now : Z) (st : State Q) :
  json_round_trips ->
  EvAdd item tag data err ∈ calls (run c ops (Build_State ∅ q [])) ->
  handleJob c now {| jq.Data := data |} st = handleURL c now item st.
Proof.
  intros Hj Hin.
  destruct (proj2 (run_sound c ops _ (fresh_sound c q)) item tag data err Hin)
    as (link & u & _ & _ & _ & _ & Hm).
  unfold handleJob. simpl. by rewrite (Hj item data Hm).
Qed.

(** *** Seeds *)

Lemma MustParseURLs_from_Return (parsed us : list url.URL) (urls : list string) :
  MustParseURLs_from parsed urls = Return us <->
  exists us', us = parsed ++ us' /\
              Forall2 (fun s0 u => url.Parse s0 = inr u) urls us'.
Proof.
  revert parsed. induction urls as [|s0 urls IH]; intros parsed; simpl.
  - split.
    + intros [= <-]. exists []. by rewrite app_nil_r.
    + intros (us' & -> & Hf). apply Forall2_nil_inv_l in Hf as ->.
      by rewrite app_nil_r.
  - destruct (url.Parse s0) as [e|u] eqn:Hp.
    + split; [done|]. intros (us' & _ & Hf).
      apply Forall2_cons_inv_l in Hf as (u & us'' & Hu & _ & _). congruence.
    + rewrite IH. split.
      * intros (us' & -> & Hf). exists (u :: us').
        split; [by rewrite <- app_assoc|]. by constructor.
      * intros (us' & -> & Hf).
        apply Forall2_cons_inv_l in Hf as (u' & us'' & Hu & Hf & ->).
        assert (u' = u) as -> by congruence.
        exists us''. split; [by rewrite <- app_assoc|done].
Qed.

Lemma MustParseURLs_from_Abort (parsed : list url.URL) (urls : list string) :
  (exists why, MustParseURLs_from parsed urls = Abort why) <->
  exists s0 e, s0 ∈ urls /\ url.Parse s0 = inl e.
Proof.
  revert parsed. induction urls as [|s0 urls IH]; intros parsed; simpl.
  - split; [by intros [why ?]|]. intros (s0 & e & Hin & _).
    by apply elem_of_nil in Hin.
  - destruct (url.Parse s0) as [e|u] eqn:Hp.
    + split; [|eauto]. intros _. exists s0, e. split; [left|done].
    + rewrite IH. split.
      * intros (s1 & e & Hin & Hp1). exists s1, e. split; [by right|done].
      * intros (s1 & e & Hin & Hp1).
        apply elem_of_cons in Hin as [->|Hin]; [congruence|eauto].
Qed.

(** X13.  [MustParseURLs] returns the parsed URLs in the order of its
    input, one for each string, exactly when every string parses; it
    aborts the process exactly when some string does not. *)
Theorem MustParseURLs_spec (urls : list string) :
  (forall us, MustParseURLs urls = Return us <->
              Forall2 (fun s0 u => url.Parse s0 = inr u) urls us) /\
  ((exists why, MustParseURLs urls = Abort why) <->
   exists s0 e, s0 ∈ urls /\ url.Parse s0 = inl e).
Proof.
  split; [|apply MustParseURLs_from_Abort].
  intros us. unfold MustParseURLs. rewrite MustParseURLs_from_Return.
  split; [by intros (us' & -> & Hf)|]. intros Hf. by exists us.
Qed.

(** The seed loop returns exactly when each of its [Enqueue] calls
    returns nil. *)
Lemma Run_seeds_from_Return c (us : list url.URL) st st' :
  Run_seeds_from c us st = (Return tt, st') <->
  enqueueAll c (seedRequests us) st = ((fun _ => Return None) <$> us, st').
Proof.
  revert st. induction us as [|u us IH]; intros st; simpl.
  - split; by intros [= <-].
  - destruct (Enqueue c _ 0 st) as [[[e|]|why] st1]; simpl.
    + destruct (enqueueAll c (seedRequests us) st1). by split.
    + specialize (IH st1).
      destruct (enqueueAll c (seedRequests us) st1) as [rs st2]. split.
      * intros Hr. apply IH in Hr. injection Hr as -> ->. done.
      * intros [= Hrs ->]. apply IH. by f_equal.
    + by split.
Qed.

(** X14.  For a codec that meets the gob contract: when the seed loop of
    [Run] returns, a canonical URL [s] that had no record before has one
    and was added to the queue once if some seed with canonical URL [s]
    is in scope (as a primary link at depth 0), however many seeds share
    it; otherwise it has no record and nothing was added for it. *)
Theorem Run_seeds_dedupe c (s : string) st st' :
  gob.round_trips URLInfo_zero ->
  db st !! urlKey s = None ->
  Run_seeds c st = (Return tt, st') ->
  (occursInScope c s (seedRequests (seeds c)) ->
   known s (db st') /\
   countAdds s (calls st') = (countAdds s (calls st) + 1)%nat) /\
  (~ occursInScope c s (seedRequests (seeds c)) ->
   db st' !! urlKey s = None /\
   countAdds s (calls st') = countAdds s (calls st)).
Proof.
  intros Hrt Hk Hrun. unfold Run_seeds in Hrun.
  apply Run_seeds_from_Return in Hrun.
  pose proof (enqueueAll_unknown Hrt c s (seedRequests (seeds c)) st Hk) as Hall.
  rewrite Hrun in Hall. simpl in Hall.
  destruct Hall as [Hin Hout].
  { unfold allNil, seedRequests. by rewrite <- list_fmap_compose. }
  split; intros Ho.
  - by destruct (Hin Ho) as (? & ? & _).
  - by destruct (Hout Ho) as (? & ? & _).
Qed.

(** X15.  A failure on a seed is fatal and stops the loop: if the
    [Enqueue] of a seed returns an error, the seed loop aborts in the
    state that call left, and no later seed is enqueued. *)
Theorem Run_seeds_error_fatal c (before after : list url.URL) (u : url.URL)
    st st1 st2 (e : error) :
  seeds c = before ++ u :: after ->
  Run_seeds_from c before st = (Return tt, st1) ->
  Enqueue c {| link_URL := u; Tag := TagPrimary |} 0 st1 = (Return (Some e), st2) ->
  exists why, Run_seeds c st = (Abort why, st2).
Proof.
  intros Hseeds Hbefore HE. unfold Run_seeds. rewrite Hseeds. clear Hseeds.
  revert st Hbefore. induction before as [|u0 before IH]; intros st; simpl.
  - intros [= ->]. rewrite HE. simpl. eauto.
  - destruct (Enqueue c _ 0 st) as [[[e0|]|why] st0]; simpl; try done.
    apply IH.
Qed.

(** *** Workers *)




End Engine_more.

(** ** Link extraction *)

Section Analysis_facts.
Context {Document : Type} `{goquery.Lib Document} `{css.Lib} `{url.Lib}.

Lemma linkMap_snoc (base : url.URL) (outs : list string) (val : string) :
  linkMap base (outs ++ [val]) =
  match url.URL_Parse base val with
  | inr linkurl => <[url.String linkurl := linkurl]> (linkMap base outs)
  | inl _ => linkMap base outs
  end.
Proof. unfold linkMap. by rewrite foldl_app. Qed.

(** Every entry of the map is a raw link that resolved, under its own
    string as key. *)
Lemma linkMap_sound (base : url.URL) (outs : list string) (k : string)
    (u : url.URL) :
  linkMap base outs !! k = Some u ->
  k = url.String u /\ exists val, val ∈ outs /\ url.URL_Parse base val = inr u.
Proof.
  induction outs as [|val outs IH] using rev_ind.
  - unfold linkMap. simpl. by rewrite lookup_empty.
  - rewrite linkMap_snoc. intros Hk.
    assert (Hold : linkMap base outs !! k = Some u ->
                   k = url.String u /\
                   exists val0, val0 ∈ outs ++ [val] /\
                                url.URL_Parse base val0 = inr u).
    { intros Hk'. destruct (IH Hk') as [-> (val0 & Hin & Hp)].
      split; [done|]. exists val0. split; [|done].
      apply elem_of_app. by left. }
    destruct (url.URL_Parse base val) as [e|u'] eqn:Hp; [by apply Hold|].
    destruct (decide (url.String u' = k)) as [<-|Hne].
    + rewrite lookup_insert_eq in Hk. injection Hk as <-.
      split; [done|]. exists val. split; [|done].
      apply elem_of_app. right. by apply list_elem_of_singleton.
    + rewrite lookup_insert_ne in Hk by done. by apply Hold.
Qed.

(** Every raw link that resolves has its string as a key of the map. *)
Lemma linkMap_complete (base : url.URL) (outs : list string) (val : string)
    (u : url.URL) :
  val ∈ outs -> url.URL_Parse base val = inr u ->
  is_Some (linkMap base outs !! url.String u).
Proof.
  induction outs as [|val' outs IH] using rev_ind; intros Hin Hp.
  - by apply elem_of_nil in Hin.
  - rewrite linkMap_snoc.
    apply elem_of_app in Hin as [Hin|Hin].
    + specialize (IH Hin Hp).
      destruct (url.URL_Parse base val') as [e|u']; [done|].
      destruct (decide (url.String u' = url.String u)) as [->|Hne].
      * by rewrite lookup_insert_eq.
      * by rewrite lookup_insert_ne.
    + apply list_elem_of_singleton in Hin as ->. rewrite Hp.
      by rewrite lookup_insert_eq.
Qed.

Lemma linkMap_size (base : url.URL) (outs : list string) :
  (size (linkMap base outs) <= length outs)%nat.
Proof.
  induction outs as [|val outs IH] using rev_ind.
  - unfold linkMap. simpl. by rewrite map_size_empty.
  - rewrite linkMap_snoc, length_app. simpl.
    destruct (url.URL_Parse base val) as [e|u]; [lia|].
    destruct (linkMap base outs !! url.String u) as [u0|] eqn:Hk.
    + rewrite map_size_insert_Some by done. lia.
    + rewrite map_size_insert_None by done. lia.
Qed.

Lemma elem_of_uniquify (base : url.URL) (outs : list string) (u : url.URL) :
  u ∈ uniquify base outs <-> exists k, linkMap base outs !! k = Some u.
Proof.
  unfold uniquify. rewrite list_elem_of_fmap. split.
  - intros ([k u'] & -> & Hin). exists k. by apply elem_of_map_to_list.
  - intros (k & Hk). exists (k, u). split; [done|].
    by apply elem_of_map_to_list.
Qed.

(** X17.  The links that [GetLinks] returns are pairwise different as
    strings, and there are no more of them than raw links in the
    response. *)
Theorem GetLinks_distinct (resp : http.Response) (links : list url.URL) :
  GetLinks resp = inr links ->
  NoDup (url.String <$> links) /\
  exists outs, outlinksOf resp = inr outs /\ (length links <= length outs)%nat.
Proof.
  unfold GetLinks. destruct (outlinksOf resp) as [e|outs]; [done|].
  intros [= <-].
  set (base := http.Request_URL (http.Response_Request resp)).
  split.
  - unfold uniquify.
    assert (Heq : url.String <$> (map_to_list (linkMap base outs)).*2 =
                  (map_to_list (linkMap base outs)).*1).
    { rewrite <- list_fmap_compose. apply Forall_fmap_ext, Forall_forall.
      intros [k u] Hin.
      apply elem_of_map_to_list, linkMap_sound in Hin as [-> _]. done. }
    rewrite Heq. apply NoDup_fst_map_to_list.
  - exists outs. split; [done|].
    unfold uniquify. rewrite length_fmap, length_map_to_list.
    apply linkMap_size.
Qed.

(** X18.  What [GetLinks] returns, against the raw links of the
    response: every link returned is a raw link resolved against the
    request URL; every raw link that resolves is returned, or another
    one with the same string is; a raw link that does not resolve is
    dropped without an error. *)
Theorem GetLinks_links (resp : http.Response) (links : list url.URL) :
  GetLinks resp = inr links ->
  let base := http.Request_URL (http.Response_Request resp) in
  exists outs, outlinksOf resp = inr outs /\
    (forall u, u ∈ links ->
       exists val, val ∈ outs /\ url.URL_Parse base val = inr u) /\
    (forall val u, val ∈ outs -> url.URL_Parse base val = inr u ->
       exists u', u' ∈ links /\ url.String u' = url.String u).
Proof.
  unfold GetLinks. destruct (outlinksOf resp) as [e|outs]; [done|].
  intros [= <-]. cbv zeta.
  set (base := http.Request_URL (http.Response_Request resp)).
  exists outs. split; [done|]. split.
  - intros u (k & Hk)%elem_of_uniquify.
    by destruct (linkMap_sound base outs k u Hk) as [_ Hval].
  - intros val u Hin Hp.
    destruct (linkMap_complete base outs val u Hin Hp) as [u' Hk].
    exists u'. split; [apply elem_of_uniquify; eauto|].
    by destruct (linkMap_sound base outs _ u' Hk) as [<- _].
Qed.

(** X19.  [GetLinks] by content type: it fails only for a response
    declared [text/html] whose document does not parse, with the error
    of the parser; for a response that is neither [text/html] nor
    [text/css], and for a [text/css] response whose body cannot be read,
    it returns no links and no error. *)
Theorem GetLinks_by_content_type (resp : http.Response) :
  let ctype := http.Header_Get (http.Header_ resp) "Content-Type" in
  (forall e, GetLinks resp = inl e ->
     String.prefix "text/html" ctype = true /\
     goquery.NewDocumentFromResponse resp = inl e) /\
  (String.prefix "text/html" ctype = false ->
   String.prefix "text/css" ctype = false \/
     (exists e, css.ReadAll resp = inl e) ->
   GetLinks resp = inr []).
Proof.
  intros ctype. unfold GetLinks, outlinksOf. fold ctype. split.
  - intros e.
    destruct (String.prefix "text/html" ctype).
    + destruct (goquery.NewDocumentFromResponse resp) as [e'|doc]; [|done].
      by intros [= ->].
    + destruct (String.prefix "text/css" ctype); [|done].
      by destruct (css.ReadAll resp).
  - intros -> Hcss.
    assert (Hnone : forall base, uniquify base [] = []).
    { intros base. unfold uniquify, linkMap. simpl. by rewrite map_to_list_empty. }
    destruct (String.prefix "text/css" ctype).
    + destruct Hcss as [?|[e He]]; [done|]. by rewrite He, Hnone.
    + by rewrite Hnone.
Qed.
End Analysis_facts.

(** * The engine on concrete inputs *)

Import Sim.

(** ** The stand-in serialization meets the contract of the codecs *)

Lemma undigits_digits (p : positive) : Sim.undigits (Sim.digits p) = Some p.
Proof. induction p as [p IH|p IH|]; simpl; rewrite ?IH; reflexivity. Qed.

Lemma deserialize_serialize {T} `{Countable T} (v : T) :
  Sim.deserialize (Sim.serialize v) = Some v.
Proof.
  unfold Sim.deserialize, Sim.serialize.
  rewrite undigits_digits. simpl. apply decode_encode.
Qed.

Lemma Sim_gob_round_trips : gob.round_trips (T := URLInfo) URLInfo_zero.
Proof.
  intros v b Hb. simpl in Hb. injection Hb as <-.
  simpl. by rewrite deserialize_serialize.
Qed.

(** ** C8 *)

Lemma gobDB_round_trip_witness :
  let v := {| URL := "http://a/"; StatusCode := 404; CrawledAt := 7; Error := "" |} in
  GetObj (snd (PutObj ∅ "url/http://a/" v)) "url/http://a/" URLInfo_zero = (None, v) /\
  GetObj (putAll [("url/http://a/", v)] ∅) "url/http://b/" v =
    (Some ErrNotFound, v).
Proof.
  intros v.
  destruct (gobDB_round_trip URLInfo_zero Sim_gob_round_trips) as [Hrt Hmiss].
  split.
  - apply (Hrt ∅). reflexivity.
  - apply Hmiss. vm_compute. intros Hin.
    apply list_elem_of_singleton in Hin. discriminate.
Defined.

(** ** Inputs *)

Lemma canonical_home : canonical home = Some "http://a/".
Proof. reflexivity. Qed.

Lemma canonical_home' : canonical home' = Some "http://a/".
Proof. reflexivity. Qed.

(** A run on one store: the seed, the same URL in another surface form,
    and another URL beyond the depth limit. *)
Example enqueueAll_example :
  let '(rs, st) := enqueueAll (crawler 10 accept (None, None))
                     [(home, 0); (home', 1); (other, 11)] (fresh 0) in
  rs = [Return None; Return None; Return None] /\
  map fst (entries (queue st)) = ["a"] /\
  dom (db st) = {[ "url/http://a/" ]}.
Proof. vm_compute. repeat split. Qed.

(** ** C1 *)

(** A run with one occurrence of the canonical URL [http://a/], beyond
    the depth limit of the scope: the call returns nil, and it is not
    the case that one [Add] was made and a record exists (no [Add] was
    made and no record written). *)
Lemma enqueue_occurrence_without_add :
  let c := crawler 10 accept (None, None) in
  let reqs := [(home, 11)] in
  let st' := snd (enqueueAll c reqs (fresh 0)) in
  (exists link depth, (link, depth) ∈ reqs /\ canonical link = Some "http://a/") /\
  fst (enqueueAll c reqs (fresh 0)) = [Return None] /\
  ~ (countAdds "http://a/" (calls st') = 1%nat /\
     is_Some (db st' !! urlKey "http://a/")).
Proof.
  intros c reqs st'. split; [|split].
  - exists home, 11. split; [left|reflexivity].
  - reflexivity.
  - intros [Hadds _]. vm_compute in Hadds. discriminate.
Qed.

Lemma Enqueue_dedupe_witness :
  let c := crawler 10 accept (None, None) in
  let reqs := [(home, 11); (other, 0); (home', 1); (home, 0)] in
  let st' := snd (enqueueAll c reqs (fresh 0)) in
  countAdds "http://a/" (calls st') = 1%nat /\
  countPuts (urlKey "http://a/") (calls st') = 1%nat /\
  known "http://a/" (db st') /\
  Enqueue c home 2 st' = (Return None, st').
Proof.
  intros c reqs st'.
  destruct (Enqueue_dedupe c "http://a/" Sim_gob_round_trips) as [Hrun Hknown].
  destruct (Hrun reqs (fresh 0)) as [Hin _].
  - reflexivity.
  - reflexivity.
  - destruct Hin as (Ha & Hp & Hk).
    + exists home', 1. split; [|split; reflexivity].
      right. right. left.
    + split; [exact Ha|]. split; [exact Hp|]. split; [exact Hk|].
      apply Hknown; [reflexivity|exact Hk].
Defined.

(** ** C2 *)

Lemma handleURL_classifies_witness :
  let c := crawler 10 accept (Some (page (mkURL "http" "a" "/") 200 ∅), None) in
  let item := {| item_URL := "http://a/"; Depth := 0 |} in
  let info := {| URL := "http://a/"; StatusCode := 200; CrawledAt := 7; Error := "" |} in
  handleURL c 7 item (fresh 0) =
    (Return None,
     Build_State {[ urlKey "http://a/" := serialize info ]}
       {| outages := 0; entries := [] |}
       [EvPutObj (urlKey "http://a/") info None]).
Proof.
  intros c item info.
  destruct (handleURL_classifies c 7 item (fresh 0)
              (Some (page (mkURL "http" "a" "/") 200 ∅)) None None (fresh 0))
    as [_ Hwrite].
  - reflexivity.
  - intros _. eexists. reflexivity.
  - reflexivity.
  - rewrite (Hwrite (serialize info)); reflexivity.
Defined.

(** With a handler that asks for a retry nothing is written. *)
Example handleURL_retry_example :
  let c := crawler 10 (HandleRetries accept)
             (Some (page (mkURL "http" "a" "/") 503 ∅), None) in
  handleURL c 7 {| item_URL := "http://a/"; Depth := 0 |} (fresh 0) =
    (Return (Some ErrRetryRequest), fresh 0).
Proof. reflexivity. Qed.

(** ** C3 *)

Lemma Enqueue_out_of_scope_witness :
  Enqueue (crawler 10 accept (None, None)) home 11 (fresh 0) =
    (Return None, fresh 0).
Proof.
  apply Enqueue_out_of_scope with (u := mkURL "http" "a" "/"); reflexivity.
Defined.

(** ** C4 *)

Lemma HandleRetries_spec_witness :
  HandleRetries accept "http://a/" 0
    (Some (page (mkURL "http" "a" "/") 429 ∅)) None =
  HReturn (Some ErrRetryRequest).
Proof.
  destruct (HandleRetries_spec "http://a/" 0
              (Some (page (mkURL "http" "a" "/") 429 ∅)) None)
    as [[Hretry _] _].
  - intros _. eexists. reflexivity.
  - apply Hretry. right. eexists. split; [reflexivity|]. left. reflexivity.
Defined.

(** ** C5 *)

Lemma FollowRedirects_spec_witness :
  let c := crawler 10 accept (None, None) in
  let resp := page (mkURL "http" "a" "/") 301 {[ "Location" := ["/new"] ]} in
  let target := {| link_URL := mkURL "http" "a" "/new"; Tag := TagPrimary |} in
  hrun c (FollowRedirects accept "http://a/" 0 (Some resp) None) (fresh 0) =
    Enqueue c target 1 (fresh 0) /\
  hcalls c (FollowRedirects accept "http://a/" 0 (Some resp) None) (fresh 0) =
    [(target, 1)].
Proof.
  intros c resp target.
  destruct (FollowRedirects_spec c accept "http://a/" 0 (Some resp) None None
              (fresh 0) (fresh 0) eq_refl) as (_ & _ & Hredir).
  destruct (Hredir resp eq_refl eq_refl eq_refl) as [Hin _].
  destruct Hin as [Hok _].
  - simpl. lia.
  - vm_compute. discriminate.
  - exact (Hok (mkURL "http" "a" "/new") eq_refl).
Defined.

(** A [Location] that does not parse is dropped. *)
Example FollowRedirects_bad_location :
  FollowRedirects accept "http://a/" 0
    (Some (page (mkURL "http" "a" "/") 302 {[ "Location" := ["%zz"] ]})) None =
  HReturn None.
Proof. reflexivity. Qed.

(** ** C7 *)

(** The job with the payload [not json], which does not decode, on an
    empty store: nil goes to the queue, and no record of any URL is in
    the store afterwards. *)
Lemma malformed_job_records_nothing :
  let c := crawler 10 accept (None, None) in
  let job := {| jq.Data := "not json" |} in
  fst (json.Unmarshal (jq.Data job) queueItem_zero) <> None /\
  fst (handleJob c 7 job (fresh 0)) = Return None /\
  ~ (exists key b, db (snd (handleJob c 7 job (fresh 0))) !! key = Some b).
Proof.
  intros c job. split; [|split].
  - vm_compute. discriminate.
  - reflexivity.
  - intros (key & b & Hkey). vm_compute in Hkey. discriminate.
Qed.

Lemma handleJob_malformed_witness :
  handleJob (crawler 10 accept (None, None)) 7 {| jq.Data := "not json" |}
    (fresh 0) = (Return None, fresh 0).
Proof.
  apply handleJob_malformed
    with (err := ErrOther "json: malformed data") (item := queueItem_zero).
  reflexivity.
Defined.

(** ** C9 *)

Lemma Enqueue_add_failure_witness :
  let c := crawler 10 accept (None, None) in
  let e := ErrOther "context deadline exceeded" in
  fst (Enqueue c home 0 (fresh 1)) = Return (Some e) /\
  db (snd (Enqueue c home 0 (fresh 1))) = ∅ /\
  countAdds "http://a/"
    (calls (snd (Enqueue c home 0 (snd (Enqueue c home 0 (fresh 1)))))) = 2%nat.
Proof.
  intros c e.
  pose proof (Enqueue_add_failure c home 0 (fresh 1) (mkURL "http" "a" "/")
                ErrNotFound e URLInfo_zero
                (serialize {| item_URL := "http://a/"; Depth := 0 |})
                {| outages := 0; entries := [] |}
                eq_refl eq_refl eq_refl eq_refl eq_refl) as Hw.
  cbv zeta in Hw. destruct Hw as (Hfirst & Hdb & Hsecond).
  rewrite Hfirst. split; [reflexivity|]. split; [exact Hdb|].
  destruct (jq.Add _ _ _) as [err2 q2]. destruct Hsecond as [_ Hcount].
  exact Hcount.
Defined.

(** ** C10 *)

Lemma Error_never_assigned_witness :
  let c := crawler 10 (FollowRedirects accept)
             (Some (page (mkURL "http" "a" "/") 301 {[ "Location" := ["/new"] ]}),
              None) in
  let ops := [OpEnqueue home 0;
              OpJob 7 {| jq.Data := serialize {| item_URL := "http://a/"; Depth := 0 |} |}] in
  let st' := run c ops (fresh 0) in
  (forall k i e, EvPutObj k i e ∈ calls st' -> Error i = "") /\
  (forall k b, db st' !! k = Some b ->
     exists i, GetObj (db st') k URLInfo_zero = (None, i) /\ Error i = "").
Proof.
  intros c ops st'.
  exact (Error_never_assigned c ops {| outages := 0; entries := [] |}
           Sim_gob_round_trips).
Defined.

(** The run of that witness: two records, three writes. *)
Example run_example :
  let c := crawler 10 (FollowRedirects accept)
             (Some (page (mkURL "http" "a" "/") 301 {[ "Location" := ["/new"] ]}),
              None) in
  let ops := [OpEnqueue home 0;
              OpJob 7 {| jq.Data := serialize {| item_URL := "http://a/"; Depth := 0 |} |}] in
  let st' := run c ops (fresh 0) in
  dom (db st') = {[ "url/http://a/"; "url/http://a/new" ]} /\
  countPuts "url/http://a/" (calls st') = 2%nat /\
  countPuts "url/http://a/new" (calls st') = 1%nat.
Proof. vm_compute. repeat split. Qed.

(** * More of the engine on concrete inputs *)

Lemma Sim_json_round_trips : json_round_trips.
Proof.
  intros item data Hm. simpl in Hm. injection Hm as <-.
  simpl. by rewrite deserialize_serialize.
Qed.


(** ** X1, X2, X3 *)

Lemma FilterErrors_drops_witness :
  FilterErrors accept "http://a/" 0 (Some unavailable) None = HReturn None.
Proof.
  destruct (FilterErrors_drops "http://a/" 0 (Some unavailable) None)
    as [[Hdrop _] _].
  - intros _. eexists. reflexivity.
  - apply Hdrop. right. exists unavailable. split; [reflexivity|].
    simpl. lia.
Defined.

Lemma FilterErrors_HandleRetries_witness :
  FilterErrors (HandleRetries accept) "http://a/" 0 (Some unavailable) None =
  HReturn None.
Proof.
  rewrite FilterErrors_HandleRetries.
  - reflexivity.
  - intros _. eexists. reflexivity.
Defined.

Lemma retry_redirect_filter_by_status_witness :
  let stack := HandleRetries (FollowRedirects (FilterErrors accept)) in
  stack "http://a/" 0 (Some unavailable) None = HReturn (Some ErrRetryRequest) /\
  stack "http://a/" 0 (Some redirect) None =
    FollowRedirects accept "http://a/" 0 (Some redirect) None.
Proof.
  intros stack. split.
  - destruct (retry_redirect_filter_by_status accept "http://a/" 0 unavailable)
      as (Hretry & _ & _).
    apply Hretry. right. simpl. lia.
  - destruct (retry_redirect_filter_by_status accept "http://a/" 0 redirect)
      as (_ & _ & Hpass).
    apply Hpass. simpl. lia.
Defined.

(** ** X4, X5, X6 *)

Lemma handleURL_retry_untouched_witness :
  let c := crawler 10 (HandleRetries accept) (Some unavailable, None) in
  let st := snd (Enqueue c home 0 (fresh 0)) in
  handleURL c 7 rootItem st = (Return (Some ErrRetryRequest), st).
Proof.
  intros c st.
  apply handleURL_retry_untouched
    with (wrap := accept) (resp := Some unavailable) (ferr := None).
  - reflexivity.
  - reflexivity.
  - intros _. eexists. reflexivity.
  - right. exists unavailable. split; [reflexivity|]. simpl. lia.
Defined.

Lemma handleURL_redirect_error_fatal_witness :
  let c := crawler 10 (FollowRedirects accept) (Some redirect, None) in
  exists why st2,
    handleURL c 7 rootItem (fresh 1) = (Abort why, st2) /\ db st2 = ∅.
Proof.
  intros c.
  destruct (handleURL_redirect_error_fatal c accept 7 rootItem (fresh 1) (fresh 1)
              (snd (Enqueue c {| link_URL := mkURL "http" "a" "/new";
                                 Tag := TagPrimary |} 1 (fresh 1)))
              redirect (mkURL "http" "a" "/new")
              (ErrOther "context deadline exceeded")) as [why Hw].
  - reflexivity.
  - reflexivity.
  - reflexivity.
  - simpl. lia.
  - vm_compute. discriminate.
  - reflexivity.
  - reflexivity.
  - discriminate.
  - exists why. eexists. split; [exact Hw|reflexivity].
Defined.

Lemma handleURL_read_back_witness :
  let c := crawler 10 accept (Some htmlPage, None) in
  GetObj (db (snd (handleURL c 7 rootItem (fresh 0))))
         "url/http://a/" URLInfo_zero =
    (None, {| URL := "http://a/"; StatusCode := 200; CrawledAt := 7;
              Error := "" |}).
Proof.
  intros c.
  apply (handleURL_read_back c 7 rootItem (fresh 0)).
  - exact Sim_gob_round_trips.
  - reflexivity.
Defined.

(** ** X7, X8, X9 *)

Lemma Enqueue_twice_witness :
  let c := crawler 10 accept (None, None) in
  let st1 := snd (Enqueue c home 0 (fresh 0)) in
  Enqueue c home 0 st1 = (Return None, st1).
Proof.
  intros c st1.
  apply (Enqueue_twice c home 0 (fresh 0)).
  - exact Sim_gob_round_trips.
  - reflexivity.
Defined.


Lemma known_for_good_witness :
  let c := crawler 10 (FollowRedirects accept) (Some redirect, None) in
  let st := snd (Enqueue c home 0 (fresh 0)) in
  let ops := [OpJob 7 {| jq.Data := serialize rootItem |};
              OpEnqueue home' 1; OpEnqueue other 2] in
  known "http://a/" (db (run c ops st)) /\
  countAdds "http://a/" (calls (run c ops st)) = 1%nat.
Proof.
  intros c st ops.
  apply (known_for_good c "http://a/" ops st).
  - exact Sim_gob_round_trips.
  - exists URLInfo_zero, (serialize URLInfo_zero). split; reflexivity.
Defined.

(** ** X10, X11, X12 *)


Lemma queue_adds_are_in_scope_witness :
  let c := crawler 10 accept (None, None) in
  exists link u,
    normalizeURL (link_URL link) = Return u /\
    scope c {| link_URL := u; Tag := Tag link |} 0 = true /\
    "http://a/" = url.String u /\
    "a" = url.Host u /\
    json.Marshal rootItem = inr (serialize rootItem).
Proof.
  intros c.
  apply (queue_adds_are_in_scope c [OpEnqueue home 0]
           {| outages := 0; entries := [] |} rootItem "a"
           (serialize rootItem) None).
  vm_compute. left.
Defined.

Lemma handleJob_of_added_payload_witness :
  let c := crawler 10 accept (Some htmlPage, None) in
  handleJob c 7 {| jq.Data := serialize rootItem |} (fresh 0) =
  handleURL c 7 rootItem (fresh 0).
Proof.
  intros c.
  apply (handleJob_of_added_payload c [OpEnqueue home 0]
           {| outages := 0; entries := [] |} rootItem "a"
           (serialize rootItem) None).
  - exact Sim_json_round_trips.
  - vm_compute. left.
Defined.

(** ** X13, X14, X15, X16 *)

Lemma MustParseURLs_spec_witness :
  MustParseURLs ["http://a/"; "http://b/x"] =
    Return [mkURL "http" "a" "/"; mkURL "http" "b" "/x"] /\
  exists why, MustParseURLs ["http://a/"; "no scheme"] = Abort why.
Proof.
  split.
  - apply (proj1 (MustParseURLs_spec _)).
    repeat constructor.
  - apply (proj2 (MustParseURLs_spec _)).
    exists "no scheme", (ErrOther "invalid character in URL").
    split; [right; left|reflexivity].
Defined.

Lemma Run_seeds_dedupe_witness :
  let st' := snd (Run_seeds twoSeeds (fresh 0)) in
  known "http://a/" (db st') /\ countAdds "http://a/" (calls st') = 1%nat.
Proof.
  intros st'.
  destruct (Run_seeds_dedupe twoSeeds "http://a/" (fresh 0) st'
              Sim_gob_round_trips) as [Hin _].
  - reflexivity.
  - reflexivity.
  - apply Hin. exists home, 0. split; [left|split; reflexivity].
Defined.

Lemma Run_seeds_error_fatal_witness :
  exists why st2,
    Run_seeds twoSeeds (fresh 1) = (Abort why, st2) /\
    entries (queue st2) = [].
Proof.
  destruct (Run_seeds_error_fatal twoSeeds []
              [mkURL "HTTP" "a" "/"; mkURL "http" "b" "/x"]
              (mkURL "http" "A" "/") (fresh 1) (fresh 1)
              (snd (Enqueue twoSeeds home 0 (fresh 1)))
              (ErrOther "context deadline exceeded")) as [why Hw].
  - reflexivity.
  - reflexivity.
  - reflexivity.
  - exists why. eexists. split; [exact Hw|reflexivity].
Defined.


(** That run: the two seeds that differ only in case are one URL; its
    redirect is followed once; the worker stops when the queue is
    empty. *)
Example Run1_example :
  let '(r, st') := Run1 twoSeeds [1; 2; 3; 4; 5; 6] (fresh 0) in
  r = Some (Return tt) /\
  dom (db st') = {[ "url/http://a/"; "url/http://a/new"; "url/http://b/x" ]} /\
  entries (queue st') = [] /\
  countAdds "http://a/" (calls st') = 1%nat /\
  countAdds "http://a/new" (calls st') = 1%nat.
Proof. vm_compute. repeat split. Qed.

(** ** X17, X18, X19 *)

Lemma GetLinks_distinct_witness :
  exists links,
    GetLinks htmlPage = inr links /\
    NoDup (url.String <$> links) /\ (length links <= 5)%nat.
Proof.
  destruct (GetLinks htmlPage) as [e|links] eqn:HG;
    [vm_compute in HG; discriminate|].
  exists links. split; [reflexivity|].
  destruct (GetLinks_distinct htmlPage links HG) as [Hnd (outs & Houts & Hlen)].
  split; [exact Hnd|].
  vm_compute in Houts. injection Houts as <-. exact Hlen.
Defined.

Lemma GetLinks_links_witness :
  exists links u',
    GetLinks htmlPage = inr links /\
    u' ∈ links /\ url.String u' = "http://a/x".
Proof.
  destruct (GetLinks htmlPage) as [e|links] eqn:HG;
    [vm_compute in HG; discriminate|].
  exists links.
  destruct (GetLinks_links htmlPage links HG) as (outs & Houts & _ & Hall).
  vm_compute in Houts. injection Houts as <-.
  destruct (Hall "/x" (mkURL "http" "a" "/x")) as (u' & Hin & Hs).
  - left.
  - reflexivity.
  - exists u'. split; [reflexivity|]. split; [exact Hin|exact Hs].
Defined.

Lemma GetLinks_by_content_type_witness :
  GetLinks (page (mkURL "http" "a" "/") 200
                 {[ "Content-Type" := ["image/png"] ]}) = inr [] /\
  GetLinks (page (mkURL "http" "a" "/") 200
                 {[ "Content-Type" := ["text/css"] ]}) = inr [].
Proof.
  split.
  - apply GetLinks_by_content_type; [reflexivity|]. left. reflexivity.
  - apply GetLinks_by_content_type; [reflexivity|]. right.
    eexists. reflexivity.
Defined.
